(** * dir-tree-html: the tree builder and the renderer of [tree_html.py]

    A shallow embedding of [human_size], [Node.build] and [Node.to_html],
    and the properties the specification states about them.

    Conventions of the embedding.
    - A Python [int] is a [Z].  A Python [float] is the rational it denotes,
      a [Qc]: the only floats the program handles are finite ([st_ctime],
      [st_mtime], and quotients of a byte count by powers of 1024).
    - A Python [str] is a [string]; the source text is UTF-8, so a glyph
      such as the folder sign is the sequence of its bytes.  The characters
      the program inspects ([&], [<], [>]) are ASCII, and no byte of a
      multi-byte UTF-8 sequence is ASCII.
    - An exception that leaves a function is [None] in the [option] monad;
      an [OSError] that the program catches is a constructor of
      [os_result]. *)

From Stdlib Require Import ZArith QArith Qcanon String Ascii DecimalString.
From stdpp Require Import gmap strings list numbers sorting.

Set Warnings "-register-all".
Open Scope string_scope.
Open Scope list_scope.
Open Scope Z_scope.

(** ** Python primitives used by the program *)

Module Py.

(** [str(n)] and [f"{n}"] for an [int], below the interpreter's limit on
    the length of the conversion: CPython 3.11 raises [ValueError] for an
    [int] of more than 4300 digits ([sys.int_max_str_digits]); the
    properties that say that a count is rendered keep the count below
    it. *)
Definition str_of_int (n : Z) : string :=
  NilEmpty.string_of_int (Z.to_int n).

(** Rounding of a rational [num/den], [den] positive, to the nearest
    integer, ties to the even one: the rounding of IEEE 754 and of
    [format]. *)
Definition round_half_even (num : Z) (den : Z) : Z :=
  let q := num / den in
  let r := num mod den in
  if (den <? 2 * r) || ((den =? 2 * r) && Z.odd q) then q + 1 else q.

(** [float(n)] for an [int]: exact up to 53 bits, rounded to 53 bits
    (ties to even) beyond, [OverflowError] when the result does not fit a
    double. *)
Definition float_of_nonneg (n : Z) : Z :=
  let bits := Z.log2 n + 1 in
  if bits <=? 53 then n
  else let e := bits - 53 in round_half_even n (2 ^ e) * 2 ^ e.

Definition float_of_int (n : Z) : option Qc :=
  let m := if n <? 0 then - float_of_nonneg (- n) else float_of_nonneg n in
  if Z.abs m <? 2 ^ 1024 then Some (Qc_of_Z m) else None.

(** [n < x] for an [int] [n] and a [float] [x]: Python compares the exact
    values. *)
Definition int_lt_float (n : Z) (x : Qc) : bool :=
  bool_decide (Qc_of_Z n < x)%Qc.

Definition float_lt (x y : Qc) : bool := bool_decide (x < y)%Qc.

(** [f"{x:.1f}"] for a [float]: the exact value rounded to one decimal,
    ties to even. *)
Definition format_1f (x : Qc) : string :=
  let num := Qnum (this x) in
  let den := Z.pos (Qden (this x)) in
  let t := round_half_even (10 * Z.abs num) den in
  (if num <? 0 then "-" else "")
    +:+ str_of_int (t / 10) +:+ "." +:+ str_of_int (t mod 10).

(** [sum(xs)] over ints: a left fold from 0. *)
Definition sum (xs : list Z) : Z := fold_left Z.add xs 0.

(** [s * n] for a [str] and a non-negative [int]. *)
Fixpoint str_repeat (s : string) (n : nat) : string :=
  match n with
  | O => ""
  | S n' => s +:+ str_repeat s n'
  end.

(** ["".join(xs)]. *)
Fixpoint str_join (xs : list string) : string :=
  match xs with
  | [] => ""
  | x :: xs' => x +:+ str_join xs'
  end.

(** [s.replace(old, new)] for a one-character [old]. *)
Fixpoint str_replace (old : ascii) (new : string) (s : string) : string :=
  match s with
  | EmptyString => EmptyString
  | String c s' =>
      if Ascii.eqb c old then new +:+ str_replace old new s'
      else String c (str_replace old new s')
  end.

End Py.

(** ** Utility helpers *)

Definition kib : Qc := Qc_of_Z 1024.

(** The loop of [human_size] from its second round on, where [num_bytes]
    is a float and [unit != "bytes"], so that the conditional expression
    of the [return] is its first branch.  [units] is the rest of the tuple
    of units; the last line is the statement after the loop. *)
Fixpoint human_size_loop (units : list string) (num_bytes : Qc) : string :=
  match units with
  | [] => Py.format_1f num_bytes +:+ " PiB"
  | unit :: rest =>
      if Py.float_lt num_bytes kib || String.eqb unit "TiB" then
        Py.format_1f num_bytes +:+ " " +:+ unit
      else human_size_loop rest (num_bytes / kib)%Qc
  end.

(** [human_size(num_bytes)] for an [int].  The first round of the loop,
    with [unit = "bytes"], is the only one that sees an [int]; if it does
    not return, [num_bytes /= 1024.0] converts the count to a float, which
    raises [OverflowError] ([None]) when the count does not fit one. *)
Definition human_size (num_bytes : Z) : option string :=
  if num_bytes =? 1 then Some "1 byte"
  else if Py.int_lt_float num_bytes kib
  then Some (Py.str_of_int num_bytes +:+ " " +:+ "bytes")
  else x ← Py.float_of_int num_bytes;
       Some (human_size_loop ["KiB"; "MiB"; "GiB"; "TiB"] (x / kib)%Qc).

(** The value of the loop variable after [k] rounds of [num_bytes /= 1024.0]. *)
Fixpoint running (x : Qc) (k : nat) : Qc :=
  match k with
  | O => x
  | S k' => (running x k' / kib)%Qc
  end.

(** [html.escape(s, quote)] of the standard library: three passes of
    [str.replace], the ampersand first, and two more for the quotes when
    [quote] is set. *)
Module Html.

Definition escape (s : string) (quote : bool) : string :=
  let s := Py.str_replace "&" "&amp;" s in
  let s := Py.str_replace "<" "&lt;" s in
  let s := Py.str_replace ">" "&gt;" s in
  if quote then
    let s := Py.str_replace "034" "&quot;" s in
    Py.str_replace "'" "&#x27;" s
  else s.

End Html.

(** ** The filesystem as the walk sees it *)

(** What [stat()] gives back; [st_ctime] and [st_mtime] are floats. *)
Record stat_result := mk_stat {
  st_size : Z;
  st_ctime : Qc;
  st_mtime : Qc
}.

(** The outcome of a call that the program wraps in [try ... except
    OSError as e]: its value, or the text of the error. *)
Inductive os_result (A : Type) : Type :=
| Done (a : A)
| OSError (e : string).
Arguments Done {A} a.
Arguments OSError {A} e.

(** A [Path] is its string, [str(path)], as [pathlib] normalises it; two
    paths are equal, and hash alike, when their strings are. *)
Module Path.

Fixpoint last_part (acc s : string) : string :=
  match s with
  | EmptyString => acc
  | String c s' =>
      if Ascii.eqb c "/" then last_part "" s'
      else last_part (acc +:+ String c "") s'
  end.

(** [path.name]: the final component, empty for a root and for [.]. *)
Definition name (p : string) : string :=
  if String.eqb p "." then "" else last_part "" p.

End Path.

(** One walk of [Node.build] asks the operating system a finite tree of
    questions.  A [Walk] records the answers: for the path handed to
    [build], the answer to [path.stat()], to [path.is_dir()] and to
    [list(path.iterdir())]; for each entry that [iterdir] enumerates, the
    answer to the [child.stat()] of the parent's loop, and the walk that
    [build(child)] makes if it is called.  The two [stat] calls on one
    child are separate questions and may be answered differently.
    [is_dir()] answers [False] where its own [stat] fails.  A walk is
    finite; a tree deeper than the interpreter's recursion limit, on which
    Python raises [RecursionError], is outside the model. *)
Inductive Walk : Type :=
| MkWalk (path : string)
         (stat : os_result stat_result)
         (is_dir : bool)
         (iterdir : os_result (list (os_result stat_result * Walk))).

Definition Entry : Type := os_result stat_result * Walk.

Definition walk_path (w : Walk) : string :=
  match w with MkWalk path _ _ _ => path end.

Definition entry_path (c : Entry) : string := walk_path (snd c).
Definition entry_stat (c : Entry) : os_result stat_result := fst c.

(** ** Tree model *)

Inductive Node : Type := mkNode {
  path : string;
  name : string;
  is_dir : bool;
  size : Z;
  ctime : Qc;
  mtime : Qc;
  children : list Node
}.

(** [Node.__init__]. *)
Definition Node_init (path : string) (is_dir : bool) (size : Z)
    (ctime mtime : Qc) (children : option (list Node)) : Node :=
  {| path := path;
     name := if String.eqb (Path.name path) "" then path else Path.name path;
     is_dir := is_dir;
     size := size;
     ctime := ctime;
     mtime := mtime;
     children := match children with Some (c :: cs) => c :: cs | _ => [] end |}.

(** [list.sort(key=..., reverse=True)]: a stable sort, descending in the
    key; [reverse] keeps the elements of equal key in their order. *)
Section Sort.
Context {A : Type} (key : A → Qc).

Fixpoint insert_desc (x : A) (l : list A) : list A :=
  match l with
  | [] => [x]
  | y :: l' =>
      if bool_decide (key x < key y)%Qc then y :: insert_desc x l'
      else x :: y :: l'
  end.

Definition sort_desc (l : list A) : list A := foldr insert_desc [] l.

(** [a] may come before [b] in a list that descends in the key. *)
Definition ge_key (a b : A) : Prop := (key b ≤ key a)%Qc.
End Sort.

(** The diagnostics that [build] prints to [sys.stderr]. *)
Definition skip_msg (path e : string) : string :=
  "⚠️  Skipping " +:+ path +:+ " – " +:+ e.
Definition cannot_list_msg (path e : string) : string :=
  "⚠️  Cannot list " +:+ path +:+ " – " +:+ e.

(** The loop that fills [stat_map], with the lines it prints. *)
Fixpoint stat_entries (raw_entries : list Entry)
    (stat_map : gmap string stat_result) : gmap string stat_result * list string :=
  match raw_entries with
  | [] => (stat_map, [])
  | child :: rest =>
      match entry_stat child with
      | Done st =>
          stat_entries rest (<[entry_path child := st]> stat_map)
      | OSError e =>
          let '(m, log) := stat_entries rest stat_map in
          (m, skip_msg (entry_path child) e :: log)
      end
  end.

(** [raw_entries] after the [try] around [list(path.iterdir())], and the
    line printed when it fails. *)
Definition raw_entries_of (iterdir : os_result (list Entry)) : list Entry :=
  match iterdir with Done l => l | OSError _ => [] end.
Definition list_log (path : string) (iterdir : os_result (list Entry))
    : list string :=
  match iterdir with Done _ => [] | OSError e => [cannot_list_msg path e] end.

(** [p in stat_map] and the sort key [stat_map[p].st_mtime]; the key is
    looked up only for paths that are in the map. *)
Definition in_stat_map (stat_map : gmap string stat_result) (p : string) : bool :=
  bool_decide (is_Some (stat_map !! p)).
Definition mtime_key (stat_map : gmap string stat_result) (p : string) : Qc :=
  match stat_map !! p with
  | Some st => st_mtime st
  | None => 0%Qc
  end.

(** The entries that survive, in the order in which they are built. *)
Definition surviving {B : Type} (stat_map : gmap string stat_result)
    (path_of : B → string) (raw_entries : list B) : list B :=
  sort_desc (λ c, mtime_key stat_map (path_of c))
    (filter (λ c, in_stat_map stat_map (path_of c) = true) raw_entries).

(** [Node.build]: the node, and the lines printed to [sys.stderr].
    The recursion is on the walk: every enumerated entry is paired with
    the result of building it, and the pairs of the surviving entries are
    kept, so that the nodes and lines of a dropped entry are not part of
    the result; [build_eq] below gives the equation in the shape of the
    source. *)
Fixpoint build (w : Walk) : Node * list string :=
  match w with
  | MkWalk path stat isdir iterdir =>
      match stat with
      | OSError e =>
          (Node_init path false 0 0%Qc 0%Qc None, [skip_msg path e])
      | Done st =>
          if isdir then
            let raw_entries := raw_entries_of iterdir in
            let log_list := list_log path iterdir in
            let raw_built :=
              match iterdir with
              | Done l => map (λ c, (c, build (snd c))) l
              | OSError _ => []
              end in
            let '(stat_map, log_stat) := stat_entries raw_entries ∅ in
            let built :=
              surviving stat_map (λ cb, entry_path (fst cb)) raw_built in
            let children := map (λ cb, fst (snd cb)) built in
            let dir_size := Py.sum (map size children) in
            (Node_init path true dir_size (st_ctime st) (st_mtime st)
               (Some children),
             (log_list ++ log_stat
                ++ concat (map (λ cb, snd (snd cb)) built))%list)
          else
            (Node_init path false (st_size st) (st_ctime st) (st_mtime st)
               None, [])
      end
  end.

(** ** Rendering *)

Section Renderer.

(** [ts_to_str]: the local time of the machine, formatted by [DT_FMT];
    [None] when [datetime.fromtimestamp] raises (a time outside the
    years it can represent). *)
Variable ts_to_str : Qc → option string.

Definition dir_header (pad esc_name size_h modified : string) : string :=
  pad +:+ "<details open>
" +:+ pad +:+ "  <summary>📁 <strong>" +:+ esc_name +:+ "/</strong>"
  +:+ " (" +:+ size_h +:+ ", modified " +:+ modified +:+ ")</summary>
" +:+ pad +:+ "  <ul>
".

Definition dir_footer (pad : string) : string :=
  pad +:+ "  </ul>
" +:+ pad +:+ "</details>
".

Definition file_line (pad esc_name size_h modified : string) : string :=
  pad +:+ "<li>📄 " +:+ esc_name +:+ " "
  +:+ "<small>(" +:+ size_h +:+ ", modified " +:+ modified +:+ ")</small></li>
".

(** [Node.to_html]. *)
Fixpoint to_html (self : Node) (indent : Z) : option string :=
  match self with
  | mkNode _ name is_dir size ctime mtime children =>
      let esc_name := Html.escape name false in
      created ← ts_to_str ctime;
      modified ← ts_to_str mtime;
      size_h ← human_size size;
      let pad := Py.str_repeat "  " (Z.to_nat indent) in
      if is_dir then
        let header := dir_header pad esc_name size_h modified in
        body ← mapM (λ child, to_html child (indent + 2)) children;
        let footer := dir_footer pad in
        Some (header +:+ Py.str_join body +:+ footer)
      else
        Some (file_line pad esc_name size_h modified)
  end.

End Renderer.


(** An instance of [ts_to_str] for the examples: the clock of a machine
    whose local zone is UTC (CPython 3.11 on Linux).
    [datetime.fromtimestamp] rounds the time to the microsecond, ties to
    even, and raises [ValueError] when the second it falls in, or the one
    a day before (which it probes), is outside the years 1 to 9999;
    [DT_FMT] shows the time down to the second, the year without
    padding. *)
Module Utc.

Definition pad2 (n : Z) : string :=
  if n <? 10 then "0" +:+ Py.str_of_int n else Py.str_of_int n.

(** The civil date of a day number counted from 1970-01-01. *)
Definition civil_from_days (days : Z) : Z * Z * Z :=
  let z := days + 719468 in
  let era := z / 146097 in
  let doe := z - era * 146097 in
  let yoe := (doe - doe / 1460 + doe / 36524 - doe / 146096) / 365 in
  let doy := doe - (365 * yoe + yoe / 4 - yoe / 100) in
  let mp := (5 * doy + 2) / 153 in
  let d := doy - (153 * mp + 2) / 5 + 1 in
  let m := if mp <? 10 then mp + 3 else mp - 9 in
  let y := yoe + era * 400 + (if m <=? 2 then 1 else 0) in
  (y, m, d).

Definition ts_to_str (ts : Qc) : option string :=
  let num := Qnum (this ts) in
  let den := Z.pos (Qden (this ts)) in
  let us := Py.round_half_even (1000000 * num) den in
  let secs := us / 1000000 in
  if secs <? -62135510400 then None
  else
    let '(y, m, d) := civil_from_days (secs / 86400) in
    let r := secs mod 86400 in
    if 9999 <? y then None
    else Some (Py.str_of_int y +:+ "-" +:+ pad2 m +:+ "-" +:+ pad2 d +:+ " "
               +:+ pad2 (r / 3600) +:+ ":" +:+ pad2 (r mod 3600 / 60)
               +:+ ":" +:+ pad2 (r mod 60)).

End Utc.

(** The characters of a string, and the rewriting of one character by
    [html.escape(_, quote=False)]. *)
Definition chars (s : string) : list ascii := list_ascii_of_string s.

Definition escape_char (c : ascii) : string :=
  if Ascii.eqb c "&" then "&amp;"
  else if Ascii.eqb c "<" then "&lt;"
  else if Ascii.eqb c ">" then "&gt;"
  else String c "".

Definition markup_significant (c : ascii) : Prop :=
  c = "&"%char ∨ c = "<"%char ∨ c = ">"%char.

(** The nodes of a tree, the root first, and the sizes of its nodes that
    are not directories. *)
Fixpoint subnodes (n : Node) : list Node :=
  match n with
  | mkNode _ _ _ _ _ _ children => n :: concat (map subnodes children)
  end.

Fixpoint leaf_sizes (n : Node) : list Z :=
  match n with
  | mkNode _ _ is_dir size _ _ children =>
      if is_dir then concat (map leaf_sizes children) else [size]
  end.

(** The size of a node is rolled up: the sum of its children's sizes when
    it is a directory, and in any case the sum of the sizes of the nodes
    of its tree that are not directories. *)
Definition size_rolled_up (n : Node) : Prop :=
  (is_dir n = true → size n = Py.sum (map size (children n)))
  ∧ size n = Py.sum (leaf_sizes n).

(** The modification time that the parent's loop obtained for an entry. *)
Definition seen_mtime (c : Entry) : Qc :=
  match entry_stat c with
  | Done st => st_mtime st
  | OSError _ => 0%Qc
  end.

Definition stat_ok (c : Entry) : Prop :=
  match entry_stat c with Done _ => True | OSError _ => False end.

Global Instance stat_ok_dec (c : Entry) : Decision (stat_ok c).
Proof. unfold stat_ok. destruct (entry_stat c); apply _. Defined.

(** The answer that [build] itself gets from [stat] on a walk's path. *)
Definition walk_stat (w : Walk) : os_result stat_result :=
  match w with MkWalk _ stat _ _ => stat end.

(** Walks for the examples.  A file at [p] answers both [stat] calls with
    [st]; the scenario is a directory [R] that holds the file [a.txt]
    (500 bytes, modified at 100) and the directory [B] (modified at 200)
    with the file [b.bin] (2048 bytes, modified at 50). *)
Definition ts (n : Z) : Qc := Qc_of_Z n.

Definition file_entry (p : string) (st : stat_result) : Entry :=
  (Done st, MkWalk p (Done st) false (OSError "Not a directory")).

Definition dir_entry (p : string) (st : stat_result) (l : list Entry) : Entry :=
  (Done st, MkWalk p (Done st) true (Done l)).

Definition scenario : Walk :=
  MkWalk "/R" (Done (mk_stat 4096 (ts 10) (ts 300))) true
    (Done [ file_entry "/R/a.txt" (mk_stat 500 (ts 10) (ts 100));
            dir_entry "/R/B" (mk_stat 4096 (ts 20) (ts 200))
              [ file_entry "/R/B/b.bin" (mk_stat 2048 (ts 30) (ts 50)) ] ]).

(** A directory for the examples on ordering: [a] and [c] were modified
    at the same time, [b] later, and [stat] fails on [d]. *)
Definition tie_entries : list Entry :=
  [ file_entry "/T/a" (mk_stat 1 (ts 0) (ts 100));
    file_entry "/T/b" (mk_stat 2 (ts 0) (ts 200));
    (OSError "Permission denied",
     MkWalk "/T/d" (Done (mk_stat 64 (ts 0) (ts 900))) false
       (OSError "Not a directory"));
    file_entry "/T/c" (mk_stat 4 (ts 0) (ts 100)) ].

Definition tie_dir : Walk :=
  MkWalk "/T" (Done (mk_stat 4096 (ts 0) (ts 0))) true (Done tie_entries).

(** What a fragment starts with, up to the escaped name. *)
Definition fragment_opening (is_dir : bool) (pad : string) : string :=
  if is_dir
  then pad +:+ "<details open>
" +:+ pad +:+ "  <summary>📁 <strong>"
  else pad +:+ "<li>📄 ".

(** Nodes for the examples on rendering: a file, and a directory that
    holds it. *)
Definition example_file : Node :=
  Node_init "/R/a<b>.txt" false 500 (ts 10) (ts 100) None.




(** ** HTML document wrapper *)

(** The part of [str.format] that [DOC_TEMPLATE] uses: literal text, the
    doubled braces that stand for one brace, and fields named by a word,
    without conversion or format specification.  [field] is [None] in
    literal text and holds the name read so far inside a field; a value is
    put in as it is and is not scanned again.  [None] is the [ValueError]
    of a single brace or the [KeyError] of an unknown name. *)
Module PyFormat.

Fixpoint format_go (kwargs : string → option string) (field : option string)
    (t : string) : option string :=
  match t with
  | EmptyString =>
      match field with None => Some EmptyString | Some _ => None end
  | String c t' =>
      match field with
      | Some name =>
          if Ascii.eqb c "}" then
            v ← kwargs name;
            r ← format_go kwargs None t';
            Some (v +:+ r)
          else format_go kwargs (Some (name +:+ String c "")) t'
      | None =>
          if Ascii.eqb c "{" then
            match t' with
            | String c' t'' =>
                if Ascii.eqb c' "{" then
                  r ← format_go kwargs None t''; Some (String "{" r)
                else format_go kwargs (Some "") t'
            | EmptyString => None
            end
          else if Ascii.eqb c "}" then
            match t' with
            | String c' t'' =>
                if Ascii.eqb c' "}" then
                  r ← format_go kwargs None t''; Some (String "}" r)
                else None
            | EmptyString => None
            end
          else r ← format_go kwargs None t'; Some (String c r)
      end
  end.

Definition format (t : string) (kwargs : string → option string)
    : option string :=
  format_go kwargs None t.

End PyFormat.

(** A double quote, for the texts that hold one. *)
Definition dq : string := String "034" "".

Definition DOC_TEMPLATE : string :=
  "<!doctype html>
<html lang=" +:+ dq +:+ "en" +:+ dq +:+ ">
<head>
<meta charset=" +:+ dq +:+ "utf-8" +:+ dq +:+ ">
<title>Directory tree for {root}</title>
<meta name=" +:+ dq +:+ "viewport" +:+ dq +:+ " content=" +:+ dq
  +:+ "width=device-width,initial-scale=1" +:+ dq +:+ ">
<style>
:root {{
  color-scheme: light dark;
  --font-stack: -apple-system, BlinkMacSystemFont, " +:+ dq +:+ "Segoe UI"
  +:+ dq +:+ ", Roboto, Helvetica,
                Arial, sans-serif, " +:+ dq +:+ "Apple Color Emoji" +:+ dq
  +:+ ", " +:+ dq +:+ "Segoe UI Emoji" +:+ dq +:+ ";
}}
* {{ box-sizing: border-box; }}
body {{
  margin: 0;
  padding: 1.5rem;
  font-family: var(--font-stack);
  line-height: 1.5;
  font-size: 0.95rem;
}}
ul {{ list-style-type: none; padding-left: 1em; margin: 0; }}
li {{ margin: 0.2em 0; }}
details > summary {{
  cursor: pointer;
  margin: 0.4em 0;
}}
summary::-webkit-details-marker {{ display: none; }}
details summary::before {{
  content: " +:+ dq +:+ "▸ " +:+ dq +:+ ";
  display: inline-block;
  transition: transform 0.1s ease-in-out;
}}
details[open] summary::before {{
  transform: rotate(90deg);
}}
strong {{ font-weight: 600; }}
small {{ opacity: 0.75; }}
@media (prefers-color-scheme: dark) {{
  body {{ background: #111; color: #ddd; }}
  a   {{ color: #8ab4f8; }}
}}
</style>
</head>
<body>
<h1>Directory tree for <code>{root}</code></h1>
<blockquote>
Generated {now} (local time). Entries sorted by <em>most recently modified</em>.
</blockquote>
<main>
{tree_html}
</main>
</body>
</html>
".

(** [build_html_document]: [now] is [datetime.now().strftime(DT_FMT)],
    the reading of the clock when the document is made. *)
Definition build_html_document (now : string) (root_path : string)
    (tree_html : string) : option string :=
  PyFormat.format DOC_TEMPLATE
    (λ name,
       if String.eqb name "root" then Some (Html.escape root_path true)
       else if String.eqb name "now" then Some now
       else if String.eqb name "tree_html" then Some tree_html
       else None).

(** ** Predicates on walks and trees *)

(** The nodes that [to_html] renders: the node, and below a directory the
    nodes that its children render. *)
Fixpoint rendered_nodes (n : Node) : list Node :=
  match n with
  | mkNode _ _ is_dir _ _ _ children =>
      n :: (if is_dir then concat (map rendered_nodes children) else [])
  end.

(** What [to_html] needs of one node: both times can be formatted and the
    size can be. *)
Definition renderable (ts_to_str : Qc → option string) (n : Node) : Prop :=
  is_Some (ts_to_str (ctime n)) ∧ is_Some (ts_to_str (mtime n))
  ∧ is_Some (human_size (size n)).

(** A node that is not a directory has no children. *)
Definition leaf_has_no_children (n : Node) : Prop :=
  is_dir n = false → children n = [].

(** The size of a node is between 0 and [top]. *)
Definition size_within (top : Z) (n : Node) : Prop := 0 ≤ size n ≤ top.

(** A walk on which nothing fails: every [stat] succeeds, the one of the
    parent's loop as well as the one of [build], and every directory can
    be listed. *)
Fixpoint healthy (w : Walk) : Prop :=
  match w with
  | MkWalk _ stat isdir iterdir =>
      (match stat with Done _ => True | OSError _ => False end) ∧
      (isdir = true →
       match iterdir with
       | Done l =>
           (fix all (l : list Entry) : Prop :=
              match l with
              | [] => True
              | c :: l' => (stat_ok c ∧ healthy (snd c)) ∧ all l'
              end) l
       | OSError _ => False
       end)
  end.

(** A walk on which no [stat] reports a negative size. *)
Fixpoint sizes_nonneg (w : Walk) : Prop :=
  match w with
  | MkWalk _ stat _ iterdir =>
      (match stat with Done st => 0 ≤ st_size st | OSError _ => True end) ∧
      match iterdir with
      | Done l =>
          (fix all (l : list Entry) : Prop :=
             match l with
             | [] => True
             | c :: l' => sizes_nonneg (snd c) ∧ all l'
             end) l
      | OSError _ => True
      end
  end.

(** ** Strings *)

Lemma str_app_cons (x : ascii) (a b : string) :
  String x a +:+ b = String x (a +:+ b).
Proof. reflexivity. Qed.

Lemma str_app_assoc (a b c : string) : (a +:+ b) +:+ c = a +:+ (b +:+ c).
Proof.
  induction a as [|x a IH]; [done|]. by rewrite !str_app_cons, IH.
Qed.

Lemma chars_app (a b : string) : chars (a +:+ b) = (chars a ++ chars b)%list.
Proof.
  induction a as [|x a IH]; [done|].
  rewrite str_app_cons. unfold chars in *. simpl. by rewrite IH.
Qed.



(** ** Properties of [human_size] *)

Lemma running_shift x k : running (x / kib)%Qc k = running x (S k).
Proof. induction k as [|k IH]; simpl in *; [done | by rewrite IH]. Qed.

(** The loop returns in the first round whose value is below 1024 or whose
    unit is TiB; it reaches the statement after the loop only when the
    tuple has no TiB. *)
Lemma human_size_loop_spec units x :
  (∃ k unit,
      units !! k = Some unit ∧
      human_size_loop units x = Py.format_1f (running x k) +:+ " " +:+ unit ∧
      (unit ≠ "TiB" → (running x k < kib)%Qc) ∧
      (∀ j, (j < k)%nat → ¬ (running x j < kib)%Qc)) ∨
  (("TiB" ∉ units) ∧
   human_size_loop units x
     = Py.format_1f (running x (length units)) +:+ " PiB").
Proof.
  revert x. induction units as [|unit rest IH]; intros x.
  - right. split; [apply not_elem_of_nil | done].
  - simpl. unfold Py.float_lt.
    destruct (bool_decide_reflect (x < kib)%Qc) as [Hlt|Hge]; simpl.
    + left. exists 0%nat, unit. repeat split; auto. intros j Hj. lia.
    + destruct (String.eqb_spec unit "TiB") as [->|Hne].
      * left. exists 0%nat, "TiB". repeat split; auto.
        -- intros []. done.
        -- intros j Hj. lia.
      * destruct (IH (x / kib)%Qc) as [(k & u & Hk & Hs & Hb & Hprev)|[Hno Hs]].
        -- left. exists (S k), u. rewrite Hs, running_shift.
           repeat split; auto.
           ++ intros Hu. rewrite <- running_shift. auto.
           ++ intros [|j] Hj; [done|].
              rewrite <- running_shift. apply Hprev. lia.
        -- right. split.
           ++ intros Hin. apply elem_of_cons in Hin as [Heq|Hin]; auto.
           ++ rewrite Hs, running_shift. done.
Qed.

Lemma int_lt_float_kib n : Py.int_lt_float n kib = bool_decide (n < 1024).
Proof.
  unfold Py.int_lt_float, kib. apply bool_decide_ext.
  symmetry. apply Z2Qc_inj_lt.
Qed.

(** C5: the six values of the table of byte-count formatting. *)
Theorem human_size_table :
  human_size 1 = Some "1 byte" ∧
  human_size 0 = Some "0 bytes" ∧
  human_size 1023 = Some "1023 bytes" ∧
  human_size 1024 = Some "1.0 KiB" ∧
  human_size 1536 = Some "1.5 KiB" ∧
  human_size 1048576 = Some "1.0 MiB".
Proof. vm_compute. repeat split; reflexivity. Qed.

(** C6, as stated, fails: one byte below 1 MiB the running value is
    1023.999..., below 1024, and its one-decimal rendering is 1024.0 in
    KiB although MiB is available (and used one byte later). *)
Lemma human_size_displays_1024_KiB :
  human_size 1048575 = Some "1024.0 KiB" ∧
  human_size 1048576 = Some "1.0 MiB".
Proof. vm_compute. split; reflexivity. Qed.

(** C6, amended: whatever [human_size] renders in bytes, KiB, MiB or GiB
    is a running value below 1024 before it is rounded to one decimal
    (rounding may then display it as 1024.0), and every unit passed on the
    way was left with a running value of 1024 or more; only TiB, the last
    unit of the loop, carries values of 1024 or more. *)
Theorem human_size_unit_boundary (n : Z) (s : string) :
  human_size n = Some s →
  (n = 1 ∧ s = "1 byte") ∨
  (n < 1024 ∧ s = Py.str_of_int n +:+ " bytes") ∨
  (∃ x k unit,
      1024 ≤ n ∧
      Py.float_of_int n = Some x ∧
      ["KiB"; "MiB"; "GiB"; "TiB"] !! k = Some unit ∧
      s = Py.format_1f (running x (S k)) +:+ " " +:+ unit ∧
      (unit ≠ "TiB" → (running x (S k) < kib)%Qc) ∧
      (∀ j, (1 ≤ j ≤ k)%nat → (kib ≤ running x j)%Qc)).
Proof.
  unfold human_size. intros H.
  destruct (Z.eqb_spec n 1) as [->|Hn1]; [left; split; congruence|].
  rewrite int_lt_float_kib in H.
  destruct (bool_decide_reflect (n < 1024)) as [Hlt|Hge].
  { right; left. split; [done|]. injection H as <-. reflexivity. }
  right; right.
  destruct (Py.float_of_int n) as [x|] eqn:Hx;
    unfold mbind, option_bind in H; [|done].
  remember (human_size_loop ["KiB"; "MiB"; "GiB"; "TiB"] (x / kib)%Qc) as r
    eqn:Hr in H.
  injection H as <-.
  destruct (human_size_loop_spec ["KiB"; "MiB"; "GiB"; "TiB"] (x / kib)%Qc)
    as [(k & unit & Hk & Hs & Hb & Hprev)|[Hno _]].
  - exists x, k, unit. rewrite Hr, Hs, running_shift.
    repeat split; auto; try lia.
    + intros Hu. rewrite <- running_shift. auto.
    + intros [|j] [Hj1 Hj2]; [lia|].
      apply Qcnot_lt_le. rewrite <- running_shift. apply Hprev. lia.
  - exfalso. apply Hno. do 3 right. left.
Qed.

Lemma human_size_unit_boundary_witness :
  human_size 1048575 = Some "1024.0 KiB" ∧
  ((1048575 = 1 ∧ "1024.0 KiB" = "1 byte") ∨
   (1048575 < 1024 ∧ "1024.0 KiB" = Py.str_of_int 1048575 +:+ " bytes") ∨
   (∃ x k unit,
      1024 ≤ 1048575 ∧
      Py.float_of_int 1048575 = Some x ∧
      ["KiB"; "MiB"; "GiB"; "TiB"] !! k = Some unit ∧
      "1024.0 KiB" = Py.format_1f (running x (S k)) +:+ " " +:+ unit ∧
      (unit ≠ "TiB" → (running x (S k) < kib)%Qc) ∧
      (∀ j, (1 ≤ j ≤ k)%nat → (kib ≤ running x j)%Qc))).
Proof.
  split; [vm_compute; reflexivity|].
  apply (human_size_unit_boundary 1048575). vm_compute. reflexivity.
Defined.


Example utc_before_the_epoch :
  Utc.ts_to_str (Qc_of_Z (-1)) = Some "1969-12-31 23:59:59" ∧
  Utc.ts_to_str (Qc_of_Z (-30610224001)) = Some "999-12-31 23:59:59" ∧
  Utc.ts_to_str (Qc_of_Z (-62135510400)) = Some "1-01-02 00:00:00" ∧
  Utc.ts_to_str (Qc_of_Z (-62135510401)) = None ∧
  Utc.ts_to_str (Qc_of_Z 253402300800) = None.
Proof. vm_compute. repeat split; reflexivity. Qed.

(** *** The conversion to a float stays close to the count *)

Lemma round_half_even_bounds (num den : Z) :
  num / den ≤ Py.round_half_even num den ≤ num / den + 1.
Proof. unfold Py.round_half_even. destruct (_ || _); lia. Qed.

Lemma float_of_nonneg_bounds (n : Z) (k : Z) :
  0 ≤ k ≤ 52 → 2 ^ k ≤ n →
  2 ^ k ≤ Py.float_of_nonneg n ≤ 2 * n.
Proof.
  intros Hk Hn. unfold Py.float_of_nonneg.
  assert (Hpos : 0 < n) by (pose proof (Z.pow_pos_nonneg 2 k); lia).
  destruct (Z.leb_spec (Z.log2 n + 1) 53) as [Hb|Hb]; [lia|].
  cbv zeta. set (e := Z.log2 n + 1 - 53).
  assert (He : 0 < e) by (unfold e; lia).
  pose proof (Z.log2_spec n Hpos) as [Hlo _].
  replace (Z.log2 n) with (52 + e) in Hlo by (unfold e; lia).
  rewrite Z.pow_add_r in Hlo by lia.
  assert (H2e : 0 < 2 ^ e) by (apply Z.pow_pos_nonneg; lia).
  assert (Hq : 2 ^ 52 ≤ n / 2 ^ e).
  { apply Z.div_le_lower_bound; lia. }
  pose proof (round_half_even_bounds n (2 ^ e)) as [Hr1 Hr2].
  pose proof (Z.mul_div_le n (2 ^ e) H2e) as Hd.
  assert (H52 : 2 ^ k ≤ 2 ^ 52) by (apply Z.pow_le_mono_r; lia).
  assert (H2e52 : 2 ^ e ≤ 2 ^ 52 * 2 ^ e) by nia.
  split; nia.
Qed.

(** A count from 1 KiB up to 2^1023 bytes converts to a float that is at
    least every power of two below it, up to 2^52. *)
Lemma float_of_int_ge (n : Z) (k : Z) :
  0 ≤ k ≤ 52 → 2 ^ k ≤ n → n < 2 ^ 1023 →
  ∃ x, Py.float_of_int n = Some x ∧ (Qc_of_Z (2 ^ k) ≤ x)%Qc.
Proof.
  intros Hk Hlo Hhi. unfold Py.float_of_int. cbv zeta.
  assert (Hpos : 0 < n) by (pose proof (Z.pow_pos_nonneg 2 k); lia).
  destruct (Z.ltb_spec n 0) as [?|_]; [lia|].
  pose proof (float_of_nonneg_bounds n k Hk Hlo) as [Hm1 Hm2].
  assert (Hpow : 2 * 2 ^ 1023 = 2 ^ 1024) by reflexivity.
  destruct (Z.ltb_spec (Z.abs (Py.float_of_nonneg n)) (2 ^ 1024)) as [_|Hbig];
    [|lia].
  eexists. split; [reflexivity|].
  exact (proj1 (Z2Qc_inj_le _ _) Hm1).
Qed.

Lemma kib_pos : (0 < kib)%Qc.
Proof.
  unfold kib. rewrite <- Z2Qc_inj_0.
  apply (proj1 (Z2Qc_inj_lt 0 1024)). lia.
Qed.

Lemma div_kib_ge (m : Z) (x : Qc) :
  (Qc_of_Z (1024 * m) ≤ x)%Qc → (Qc_of_Z m ≤ x / kib)%Qc.
Proof.
  intros H. apply (Qcmult_lt_0_le_reg_r _ _ kib); [apply kib_pos|].
  rewrite test_field.
  - unfold kib. by rewrite <- Z2Qc_inj_mul, Z.mul_comm.
  - intros Heq. pose proof kib_pos as Hp. rewrite Heq in Hp.
    by apply Qclt_not_le in Hp; apply Hp, Qcle_refl.
Qed.

Lemma not_lt_kib (m : Z) (x : Qc) :
  1024 ≤ m → (Qc_of_Z m ≤ x)%Qc → ¬ (x < kib)%Qc.
Proof.
  intros Hm Hx Hlt. apply Qclt_not_le in Hlt. apply Hlt.
  eapply Qcle_trans; [|exact Hx]. unfold kib.
  exact (proj1 (Z2Qc_inj_le _ _) Hm).
Qed.




Example utc_examples :
  Utc.ts_to_str 0%Qc = Some "1970-01-01 00:00:00" ∧
  Utc.ts_to_str (Qc_of_Z 1700000000) = Some "2023-11-14 22:13:20" ∧
  Utc.ts_to_str (Qc_of_Z 951782400) = Some "2000-02-29 00:00:00".
Proof. vm_compute. repeat split; reflexivity. Qed.

(** ** Properties of name escaping *)

Lemma str_replace_app old new (a b : string) :
  Py.str_replace old new (a +:+ b)
  = Py.str_replace old new a +:+ Py.str_replace old new b.
Proof.
  induction a as [|x a IH]; [done|].
  rewrite str_app_cons. cbn [Py.str_replace].
  destruct (Ascii.eqb x old); rewrite IH; [by rewrite str_app_assoc | done].
Qed.

(** The three passes of [html.escape] amount to one pass that rewrites
    each character on its own. *)
Lemma escape_cons (c : ascii) (s : string) :
  Html.escape (String c s) false = escape_char c +:+ Html.escape s false.
Proof.
  unfold Html.escape, escape_char. cbn [Py.str_replace].
  destruct (Ascii.eqb_spec c "&") as [->|Hamp].
  - rewrite !str_replace_app. reflexivity.
  - cbn [Py.str_replace].
    destruct (Ascii.eqb_spec c "<") as [->|Hlt].
    + rewrite !str_replace_app. reflexivity.
    + cbn [Py.str_replace].
      destruct (Ascii.eqb_spec c ">") as [->|Hgt]; reflexivity.
Qed.

Lemma escape_char_wise (s : string) :
  Html.escape s false = Py.str_join (map escape_char (chars s)).
Proof.
  induction s as [|c s IH]; [done|].
  rewrite escape_cons, IH. reflexivity.
Qed.

Lemma escape_app (a b : string) :
  Html.escape (a +:+ b) false = Html.escape a false +:+ Html.escape b false.
Proof.
  induction a as [|c a IH]; [done|].
  by rewrite str_app_cons, !escape_cons, IH, str_app_assoc.
Qed.

(** What one character becomes: an entity when it is markup-significant,
    itself otherwise. *)
Lemma escape_char_cases (c : ascii) :
  (markup_significant c ∧
   (escape_char c = "&amp;" ∨ escape_char c = "&lt;" ∨ escape_char c = "&gt;"))
  ∨ (¬ markup_significant c ∧ escape_char c = String c "").
Proof.
  unfold escape_char, markup_significant.
  destruct (Ascii.eqb_spec c "&"); [left; auto|].
  destruct (Ascii.eqb_spec c "<"); [left; auto|].
  destruct (Ascii.eqb_spec c ">"); [left; auto|].
  right. split; [intros [?|[?|?]]; done | done].
Qed.

Lemma escape_char_no_angle (c x : ascii) :
  x ∈ chars (escape_char c) → x ≠ "<"%char ∧ x ≠ ">"%char.
Proof.
  destruct (escape_char_cases c) as [[_ He]|[Hns He]].
  - intros Hin.
    destruct He as [He|[He|He]]; rewrite He in Hin; unfold chars in Hin;
      simpl in Hin;
      repeat (apply elem_of_cons in Hin as [Hx|Hin]; [by subst x|]);
      by apply elem_of_nil in Hin.
  - rewrite He. unfold chars. simpl.
    intros Hin. apply elem_of_cons in Hin as [Hx|Hin]; [subst x|].
    + unfold markup_significant in Hns. split; intros ->; apply Hns; auto.
    + by apply elem_of_nil in Hin.
Qed.

Lemma escape_no_angle (s : string) (x : ascii) :
  x ∈ chars (Html.escape s false) → x ≠ "<"%char ∧ x ≠ ">"%char.
Proof.
  induction s as [|c s IH]; [intros Hin; by apply elem_of_nil in Hin|].
  rewrite escape_cons, chars_app. intros Hin.
  apply elem_of_app in Hin as [Hin|Hin]; [by eapply escape_char_no_angle | auto].
Qed.

(** ** The stable descending sort *)

Section SortFacts.
Context {A : Type} (key : A → Qc).

Lemma insert_desc_perm (x : A) (l : list A) :
  insert_desc key x l ≡ₚ x :: l.
Proof.
  induction l as [|y l IH]; simpl; [done|].
  case_bool_decide; [|done].
  rewrite IH. apply Permutation_swap.
Qed.

Lemma sort_desc_perm (l : list A) : sort_desc key l ≡ₚ l.
Proof.
  induction l as [|x l IH]; simpl; [done|].
  rewrite insert_desc_perm. by constructor.
Qed.

Lemma insert_desc_sorted (x : A) (l : list A) :
  StronglySorted (ge_key key) l → StronglySorted (ge_key key) (insert_desc key x l).
Proof.
  induction 1 as [|y l Hl IH Hy]; simpl.
  { repeat constructor. }
  case_bool_decide as Hlt.
  - constructor; [done|].
    rewrite insert_desc_perm. constructor; [|done].
    unfold ge_key. by apply Qclt_le_weak.
  - apply Qcnot_lt_le in Hlt.
    constructor; [by constructor|].
    constructor; [done|].
    eapply Forall_impl; [exact Hy|].
    intros z Hz. unfold ge_key in *. by eapply Qcle_trans.
Qed.

Lemma sort_desc_sorted (l : list A) : StronglySorted (ge_key key) (sort_desc key l).
Proof.
  induction l as [|x l IH]; simpl; [constructor | by apply insert_desc_sorted].
Qed.

(** Stability: the elements of one key keep the order they had. *)
Lemma insert_desc_stable (t : Qc) (x : A) (l : list A) :
  StronglySorted (ge_key key) l →
  filter (λ a, key a = t) (insert_desc key x l)
  = filter (λ a, key a = t) (x :: l).
Proof.
  induction 1 as [|y l Hl IH Hy]; simpl; [done|].
  case_bool_decide as Hlt; [|done].
  rewrite (filter_cons _ y), IH, !filter_cons.
  destruct (decide (key y = t)) as [Hyt|Hyt];
    destruct (decide (key x = t)) as [Hxt|Hxt]; try done.
  exfalso. rewrite Hyt, Hxt in Hlt.
  apply Qclt_not_le in Hlt. apply Hlt, Qcle_refl.
Qed.

Lemma sort_desc_stable (t : Qc) (l : list A) :
  filter (λ a, key a = t) (sort_desc key l) = filter (λ a, key a = t) l.
Proof.
  induction l as [|x l IH]; simpl; [done|].
  rewrite insert_desc_stable by apply sort_desc_sorted.
  by rewrite !filter_cons, IH.
Qed.

Lemma sort_desc_elem (x : A) (l : list A) : x ∈ sort_desc key l ↔ x ∈ l.
Proof. by rewrite sort_desc_perm. Qed.
End SortFacts.

(** Sorting and filtering commute with a map that the key and the test
    see through. *)
Lemma sort_desc_map {A B : Type} (key : A → Qc) (f : B → A) (l : list B) :
  sort_desc key (map f l) = map f (sort_desc (λ b, key (f b)) l).
Proof.
  induction l as [|x l IH]; simpl; [done|].
  rewrite IH. generalize (sort_desc (λ b, key (f b)) l). clear.
  intros l. induction l as [|y l IH]; simpl; [done|].
  case_bool_decide; simpl; [by rewrite IH | done].
Qed.

Lemma filter_map_test {A B : Type} (P : A → Prop) `{∀ a, Decision (P a)}
    (f : B → A) (l : list B) :
  filter P (map f l) = map f (filter (λ b, P (f b)) l).
Proof.
  induction l as [|x l IH]; simpl; [done|].
  rewrite !filter_cons, IH. by destruct (decide (P (f x))).
Qed.

Lemma surviving_map {B C : Type} stat_map (path_of : C → string) (f : B → C)
    (l : list B) :
  surviving stat_map path_of (map f l)
  = map f (surviving stat_map (λ b, path_of (f b)) l).
Proof.
  unfold surviving.
  rewrite (filter_map_test (λ c, in_stat_map stat_map (path_of c) = true)).
  by rewrite sort_desc_map.
Qed.

Lemma surviving_elem {B : Type} stat_map (path_of : B → string)
    (l : list B) (c : B) :
  c ∈ surviving stat_map path_of l ↔
  c ∈ l ∧ in_stat_map stat_map (path_of c) = true.
Proof.
  unfold surviving. rewrite sort_desc_elem, list_elem_of_filter. tauto.
Qed.

(** ** The tree builder *)

(** Induction on a walk, with the hypothesis for every enumerated entry. *)
Lemma Walk_nested_ind (P : Walk → Prop) :
  (∀ path stat isdir iterdir,
      Forall (λ c : Entry, P (snd c)) (raw_entries_of iterdir) →
      P (MkWalk path stat isdir iterdir)) →
  ∀ w, P w.
Proof.
  intros Hstep. fix IH 1. intros [path stat isdir iterdir].
  apply Hstep. destruct iterdir as [l|e]; [|constructor]. simpl.
  induction l as [|[s w] l IHl]; constructor; [apply IH | apply IHl].
Qed.

Lemma Node_init_children path isdir sz ct mt (l : list Node) :
  children (Node_init path isdir sz ct mt (Some l)) = l.
Proof. by destruct l. Qed.

(** [build] on a directory whose [stat] succeeded, in the shape of the
    source: fill [stat_map], keep the entries that are in it, sort them,
    build each, add the sizes up. *)
Lemma build_eq path st iterdir :
  build (MkWalk path (Done st) true iterdir) =
  let raw_entries := raw_entries_of iterdir in
  let entries :=
    surviving (fst (stat_entries raw_entries ∅)) entry_path raw_entries in
  let built := map (λ child : Entry, build (snd child)) entries in
  let children := map fst built in
  let dir_size := Py.sum (map size children) in
  (Node_init path true dir_size (st_ctime st) (st_mtime st) (Some children),
   (list_log path iterdir ++ snd (stat_entries raw_entries ∅)
      ++ concat (map snd built))%list).
Proof.
  cbn [build]. cbv zeta.
  destruct (stat_entries (raw_entries_of iterdir) ∅) as [stat_map log_stat].
  cbn [fst snd].
  destruct iterdir as [l|e]; cbn [raw_entries_of].
  - rewrite surviving_map. cbn [fst snd]. rewrite !map_map. reflexivity.
  - reflexivity.
Qed.

Example scenario_built :
  size (build scenario).1 = 2548 ∧
  map name (children (build scenario).1) = ["B"; "a.txt"] ∧
  map size (children (build scenario).1) = [2048; 500] ∧
  (build scenario).2 = [].
Proof. vm_compute. repeat split; reflexivity. Qed.

Lemma sum_from (l : list Z) (a : Z) : fold_left Z.add l a = a + Py.sum l.
Proof.
  unfold Py.sum. revert a. induction l as [|x l IH]; intros a; simpl; [lia|].
  rewrite (IH (a + x)), (IH (0 + x)). lia.
Qed.

Lemma sum_cons (x : Z) (l : list Z) : Py.sum (x :: l) = x + Py.sum l.
Proof. unfold Py.sum at 1. simpl. apply sum_from. Qed.

Lemma sum_app (a b : list Z) : Py.sum (a ++ b) = Py.sum a + Py.sum b.
Proof.
  induction a as [|x a IH]; [done|].
  simpl. rewrite !sum_cons, IH. lia.
Qed.

Lemma sum_concat (ls : list (list Z)) :
  Py.sum (concat ls) = Py.sum (map Py.sum ls).
Proof.
  induction ls as [|l ls IH]; [done|].
  simpl. by rewrite sum_app, sum_cons, IH.
Qed.

Lemma subnodes_eq (n : Node) :
  subnodes n = n :: concat (map subnodes (children n)).
Proof. by destruct n. Qed.

Lemma leaf_sizes_eq (n : Node) :
  leaf_sizes n
  = if is_dir n then concat (map leaf_sizes (children n)) else [size n].
Proof. by destruct n. Qed.

Lemma build_path (w : Walk) : path (build w).1 = walk_path w.
Proof. destruct w as [p [st|e] [|] it]; try reflexivity. by rewrite build_eq. Qed.

(** The children of a built directory are the builds of its surviving
    entries, in their order. *)
Lemma build_children path st iterdir :
  children (build (MkWalk path (Done st) true iterdir)).1
  = map (λ child : Entry, (build (snd child)).1)
      (surviving (stat_entries (raw_entries_of iterdir) ∅).1 entry_path
         (raw_entries_of iterdir)).
Proof.
  rewrite build_eq. cbv zeta. cbn [fst].
  by rewrite Node_init_children, map_map.
Qed.

Lemma build_size path st iterdir :
  size (build (MkWalk path (Done st) true iterdir)).1
  = Py.sum (map size (children (build (MkWalk path (Done st) true iterdir)).1)).
Proof.
  rewrite build_children, build_eq. cbv zeta. cbn [fst size Node_init].
  by rewrite !map_map.
Qed.

Lemma build_rolled_up (w : Walk) : Forall size_rolled_up (subnodes (build w).1).
Proof.
  induction w as [p stat isdir it IH] using Walk_nested_ind.
  destruct stat as [st|e]; [destruct isdir|].
  - rewrite subnodes_eq. rewrite Forall_forall in IH.
    assert (Hch : Forall (λ c, Forall size_rolled_up (subnodes c))
                    (children (build (MkWalk p (Done st) true it)).1)).
    { rewrite build_children, Forall_fmap. apply Forall_forall.
      intros c Hc. apply surviving_elem in Hc as [Hc _]. by apply IH. }
    constructor.
    + split; [intros _; apply build_size|].
      rewrite leaf_sizes_eq, build_size.
      replace (is_dir (build (MkWalk p (Done st) true it)).1) with true
        by (by rewrite build_eq).
      rewrite sum_concat, map_map. f_equal.
      apply map_ext_Forall. eapply Forall_impl; [exact Hch|].
      intros c Hc. cbv beta in Hc. rewrite subnodes_eq in Hc.
      apply Forall_cons_1 in Hc as [[_ Hc] _]. exact Hc.
    + apply Forall_concat, Forall_fmap. exact Hch.
  - rewrite subnodes_eq. cbn.
    constructor; [|constructor]. split; [done | reflexivity].
  - rewrite subnodes_eq. cbn.
    constructor; [|constructor]. split; [done | reflexivity].
Qed.

(** C1: in every tree that [Node.build] returns, the size of every
    directory node is the sum of the sizes of its direct children, hence
    the sum of the sizes of all the nodes below it that are not
    directories; and the size that [stat] reports for the directory itself
    has no part in the result. *)
Theorem directory_size_is_sum_of_children (w : Walk) (n : Node) :
  n ∈ subnodes (build w).1 →
  is_dir n = true →
  size n = Py.sum (map size (children n)) ∧
  size n = Py.sum (leaf_sizes n) ∧
  (∀ path st iterdir z,
      w = MkWalk path (Done st) true iterdir →
      build w
      = build (MkWalk path (Done (mk_stat z (st_ctime st) (st_mtime st)))
                 true iterdir)).
Proof.
  intros Hn Hdir.
  pose proof (build_rolled_up w) as Hall.
  rewrite Forall_forall in Hall. destruct (Hall n Hn) as [Hsum Hleaves].
  split; [auto|]. split; [exact Hleaves|].
  intros path st iterdir z ->. by rewrite !build_eq.
Qed.

Lemma directory_size_is_sum_of_children_witness :
  (build scenario).1 ∈ subnodes (build scenario).1 ∧
  is_dir (build scenario).1 = true ∧
  size (build scenario).1 = Py.sum (map size (children (build scenario).1)) ∧
  size (build scenario).1 = Py.sum (leaf_sizes (build scenario).1).
Proof.
  assert (Hin : (build scenario).1 ∈ subnodes (build scenario).1)
    by (rewrite subnodes_eq; apply list_elem_of_here).
  assert (Hdir : is_dir (build scenario).1 = true) by reflexivity.
  split; [exact Hin|]. split; [exact Hdir|].
  destruct (directory_size_is_sum_of_children scenario _ Hin Hdir)
    as (H1 & H2 & _).
  split; [exact H1 | exact H2].
Defined.

(** C3: when [stat] fails on the path it is given, [build] returns a ghost
    leaf (not a directory, size 0, both times 0, no children) and has
    printed one line; no exception leaves it. *)
Theorem build_ghost (p e : string) (isdir : bool)
    (iterdir : os_result (list Entry)) :
  ∃ ghost,
    build (MkWalk p (OSError e) isdir iterdir) = (ghost, [skip_msg p e]) ∧
    path ghost = p ∧
    is_dir ghost = false ∧
    size ghost = 0 ∧
    ctime ghost = 0%Qc ∧
    mtime ghost = 0%Qc ∧
    children ghost = [].
Proof. eexists. repeat split. Qed.

(** ** What [stat_map] holds after the loop *)

Lemma filter_ext_elem {A : Type} (P Q : A → Prop)
    `{∀ a, Decision (P a)} `{∀ a, Decision (Q a)} (l : list A) :
  (∀ a, a ∈ l → P a ↔ Q a) → filter P l = filter Q l.
Proof.
  induction l as [|x l IH]; intros Hext; [done|].
  rewrite !filter_cons, IH by (intros a Ha; apply Hext; by right).
  pose proof (Hext x (list_elem_of_here _ _)) as Hx.
  destruct (decide (P x)) as [HP|HP], (decide (Q x)) as [HQ|HQ];
    try done; tauto.
Qed.

Lemma sort_desc_ext_elem {A : Type} (k1 k2 : A → Qc) (l : list A) :
  (∀ a, a ∈ l → k1 a = k2 a) → sort_desc k1 l = sort_desc k2 l.
Proof.
  induction l as [|x l IH]; intros Hext; [done|].
  simpl. rewrite IH by (intros a Ha; apply Hext; by right).
  assert (Hl : ∀ a, a ∈ sort_desc k2 l → k1 a = k2 a).
  { intros a Ha. apply Hext. right. by apply sort_desc_elem in Ha. }
  assert (Hx : k1 x = k2 x) by (apply Hext; left).
  revert Hl. generalize (sort_desc k2 l). intros l'.
  induction l' as [|y l' IH']; intros Hl; simpl; [done|].
  rewrite Hx, (Hl y) by left.
  case_bool_decide; [|done].
  f_equal. apply IH'. intros a Ha. apply Hl. by right.
Qed.

(** A path that no entry has is left as it was. *)
Lemma stat_entries_other (l : list Entry) (m : gmap string stat_result)
    (p : string) :
  p ∉ map entry_path l → (stat_entries l m).1 !! p = m !! p.
Proof.
  revert m. induction l as [|c l IH]; intros m Hp; [done|].
  simpl in Hp. apply not_elem_of_cons in Hp as [Hne Hp].
  simpl. destruct (entry_stat c) as [st|e].
  - rewrite IH by done. by rewrite lookup_insert_ne.
  - destruct (stat_entries l m) as [m' lg] eqn:Hm. simpl.
    specialize (IH m Hp). by rewrite Hm in IH.
Qed.

(** When every path is enumerated once, the map holds for each entry what
    the loop's [stat] of that entry answered. *)
Lemma stat_entries_lookup (l : list Entry) (m : gmap string stat_result)
    (c : Entry) :
  NoDup (map entry_path l) → c ∈ l →
  (stat_entries l m).1 !! entry_path c
  = match entry_stat c with
    | Done st => Some st
    | OSError _ => m !! entry_path c
    end.
Proof.
  revert m. induction l as [|c0 l IH]; intros m Hnd Hc.
  { by apply elem_of_nil in Hc. }
  simpl in Hnd. apply NoDup_cons in Hnd as [Hfresh Hnd].
  apply elem_of_cons in Hc as [->|Hc].
  - simpl. destruct (entry_stat c0) as [st|e] eqn:Hst.
    + rewrite stat_entries_other by done. apply lookup_insert_eq.
    + pose proof (stat_entries_other l m _ Hfresh) as Ho.
      by destruct (stat_entries l m).
  - assert (Hne : entry_path c0 ≠ entry_path c).
    { intros Heq. apply Hfresh. rewrite Heq.
      apply list_elem_of_fmap. by exists c. }
    simpl. destruct (entry_stat c0) as [st|e].
    + rewrite IH by done. destruct (entry_stat c); [done|].
      by rewrite lookup_insert_ne.
    + pose proof (IH m Hnd Hc) as Hl.
      by destruct (stat_entries l m).
Qed.

Lemma in_stat_map_ok (raw : list Entry) (c : Entry) :
  NoDup (map entry_path raw) → c ∈ raw →
  in_stat_map (stat_entries raw ∅).1 (entry_path c) = true ↔ stat_ok c.
Proof.
  intros Hnd Hc. unfold in_stat_map, stat_ok.
  rewrite bool_decide_eq_true, stat_entries_lookup by done.
  destruct (entry_stat c); rewrite ?lookup_empty.
  - split; [done | by eexists].
  - split; [by intros [? ?] | done].
Qed.

Lemma mtime_key_seen (raw : list Entry) (c : Entry) :
  NoDup (map entry_path raw) → c ∈ raw → stat_ok c →
  mtime_key (stat_entries raw ∅).1 (entry_path c) = seen_mtime c.
Proof.
  intros Hnd Hc Hok. unfold mtime_key, seen_mtime, stat_ok in *.
  rewrite stat_entries_lookup by done.
  by destruct (entry_stat c).
Qed.

(** When every path is enumerated once, the surviving entries are those
    whose [stat] succeeded, sorted by the time it reported. *)
Lemma surviving_seen (raw : list Entry) :
  NoDup (map entry_path raw) →
  surviving (stat_entries raw ∅).1 entry_path raw
  = sort_desc seen_mtime (filter stat_ok raw).
Proof.
  intros Hnd. unfold surviving.
  rewrite (filter_ext_elem _ stat_ok) by (intros; by apply in_stat_map_ok).
  apply sort_desc_ext_elem. intros c Hc.
  apply list_elem_of_filter in Hc as [Hok Hc]. by apply mtime_key_seen.
Qed.

Lemma build_mtime (w : Walk) (s : stat_result) :
  walk_stat w = Done s → mtime (build w).1 = st_mtime s.
Proof.
  destruct w as [p stat [|] it]; cbn [walk_stat]; intros ->;
    [by rewrite build_eq | done].
Qed.

Example tie_dir_built :
  map name (children (build tie_dir).1) = ["b"; "a"; "c"] ∧
  size (build tie_dir).1 = 7 ∧
  (build tie_dir).2 = ["⚠️  Skipping /T/d – Permission denied"].
Proof. vm_compute. repeat split; reflexivity. Qed.

(** C2: when every path of a directory is enumerated once, the children
    of the built node are the builds of the entries whose [stat]
    succeeded in the parent's loop, in non-increasing order of the
    modification time obtained there, entries of equal time keeping their
    order of enumeration; when the child's own [stat] answers as the
    parent's did, the children are in non-increasing order of their
    [mtime]. *)
Theorem children_sorted_by_mtime (p : string) (st : stat_result)
    (raw : list Entry) :
  NoDup (map entry_path raw) →
  let node := (build (MkWalk p (Done st) true (Done raw))).1 in
  let kept := filter stat_ok raw in
  ∃ entries : list Entry,
    children node = map (λ c : Entry, (build c.2).1) entries ∧
    entries ≡ₚ kept ∧
    StronglySorted (ge_key seen_mtime) entries ∧
    (∀ t, filter (λ c, seen_mtime c = t) entries
          = filter (λ c, seen_mtime c = t) kept) ∧
    ((∀ c s, c ∈ raw → entry_stat c = Done s → walk_stat c.2 = Done s) →
     StronglySorted (ge_key mtime) (children node)).
Proof.
  intros Hnd node kept.
  exists (sort_desc seen_mtime kept).
  assert (Hch : children node
                = map (λ c : Entry, (build c.2).1) (sort_desc seen_mtime kept)).
  { unfold node. rewrite build_children. cbn [raw_entries_of].
    by rewrite surviving_seen. }
  split; [exact Hch|].
  split; [apply sort_desc_perm|].
  split; [apply sort_desc_sorted|].
  split; [intros t; apply sort_desc_stable|].
  intros Hsame. rewrite Hch.
  assert (Hkey : ∀ c, c ∈ sort_desc seen_mtime kept →
                      mtime (build c.2).1 = seen_mtime c).
  { intros c Hc. apply sort_desc_elem in Hc.
    apply list_elem_of_filter in Hc as [Hok Hc].
    unfold stat_ok, seen_mtime in *.
    destruct (entry_stat c) as [s|] eqn:Hs; [|done].
    apply build_mtime. by apply Hsame. }
  revert Hkey. generalize (sort_desc_sorted seen_mtime kept).
  generalize (sort_desc seen_mtime kept). intros l Hs.
  induction Hs as [|c l Hl IH Hc]; intros Hkey; simpl.
  { constructor. }
  constructor.
  - apply IH. intros c' Hc'. apply Hkey. by right.
  - apply Forall_fmap, Forall_forall. intros c' Hc'.
    rewrite Forall_forall in Hc. specialize (Hc c' Hc').
    unfold ge_key in *. cbn.
    rewrite (Hkey c) by left. rewrite (Hkey c') by (by right). exact Hc.
Qed.

Lemma children_sorted_by_mtime_witness :
  NoDup (map entry_path tie_entries) ∧
  ∃ entries : list Entry,
    children (build tie_dir).1 = map (λ c : Entry, (build c.2).1) entries ∧
    entries ≡ₚ filter stat_ok tie_entries ∧
    StronglySorted (ge_key seen_mtime) entries ∧
    (∀ t, filter (λ c, seen_mtime c = t) entries
          = filter (λ c, seen_mtime c = t) (filter stat_ok tie_entries)).
Proof.
  assert (Hnd : NoDup (map entry_path tie_entries)).
  { apply (bool_decide_unpack _). vm_compute. exact I. }
  split; [exact Hnd|].
  destruct (children_sorted_by_mtime "/T" (mk_stat 4096 (ts 0) (ts 0))
              tie_entries Hnd) as (entries & H1 & H2 & H3 & H4 & _).
  exists entries. auto.
Defined.

(** ** A child whose [stat] fails *)

(** The loop leaves the map as it is at an entry whose [stat] fails, and
    prints one line for it. *)
Lemma stat_entries_failed (l1 l2 : list Entry) (m : gmap string stat_result)
    (e : string) (sub : Walk) :
  (stat_entries (l1 ++ (OSError e, sub) :: l2) m).1
  = (stat_entries (l1 ++ l2) m).1 ∧
  ∃ before after,
    (stat_entries (l1 ++ l2) m).2 = (before ++ after)%list ∧
    (stat_entries (l1 ++ (OSError e, sub) :: l2) m).2
    = (before ++ skip_msg (walk_path sub) e :: after)%list.
Proof.
  revert m. induction l1 as [|c l1 IH]; intros m.
  - cbn. destruct (stat_entries l2 m) as [m' lg]. cbn.
    split; [done|]. by exists [], lg.
  - cbn. destruct (entry_stat c) as [st|e'].
    + apply IH.
    + destruct (IH m) as (Hm & before & after & Hb & Ha).
      destruct (stat_entries (l1 ++ l2) m) as [m1 lg1].
      destruct (stat_entries (l1 ++ (OSError e, sub) :: l2) m) as [m2 lg2].
      cbn in *. split; [done|].
      exists (skip_msg (entry_path c) e' :: before), after.
      by rewrite Hb, Ha.
Qed.

Lemma surviving_failed (l1 l2 : list Entry) (e : string) (sub : Walk) :
  walk_path sub ∉ map entry_path (l1 ++ l2) →
  surviving (stat_entries (l1 ++ (OSError e, sub) :: l2) ∅).1 entry_path
    (l1 ++ (OSError e, sub) :: l2)
  = surviving (stat_entries (l1 ++ l2) ∅).1 entry_path (l1 ++ l2).
Proof.
  intros Hfresh.
  destruct (stat_entries_failed l1 l2 ∅ e sub) as [-> _].
  unfold surviving. f_equal.
  rewrite !filter_app, filter_cons.
  destruct (decide _) as [Hin|Hout]; [|done].
  exfalso. unfold in_stat_map in Hin. apply bool_decide_eq_true in Hin.
  cbn in Hin. rewrite stat_entries_other in Hin by done.
  rewrite lookup_empty in Hin. by destruct Hin.
Qed.

(** C4: an entry whose [stat] fails in the parent's loop, and whose path
    is not enumerated a second time, leaves no trace in the node: the
    directory is built as if the entry had not been enumerated, no child
    carries its path, the size is the same, and the only difference is
    the one line that the loop prints for it (so [build] was not called
    on it). *)
Theorem failed_child_is_dropped (p : string) (st : stat_result)
    (l1 l2 : list Entry) (e : string) (sub : Walk) :
  walk_path sub ∉ map entry_path (l1 ++ l2) →
  let with_it :=
    build (MkWalk p (Done st) true (Done (l1 ++ (OSError e, sub) :: l2))) in
  let without := build (MkWalk p (Done st) true (Done (l1 ++ l2))) in
  with_it.1 = without.1 ∧
  (walk_path sub ∉ map path (children with_it.1)) ∧
  size with_it.1 = size without.1 ∧
  ∃ before after,
    without.2 = (before ++ after)%list ∧
    with_it.2 = (before ++ skip_msg (walk_path sub) e :: after)%list.
Proof.
  intros Hfresh with_it without.
  assert (Hnode : with_it.1 = without.1).
  { unfold with_it, without. rewrite !build_eq. cbv zeta.
    cbn [fst raw_entries_of]. by rewrite surviving_failed. }
  split; [exact Hnode|]. split; [|split; [by rewrite Hnode|]].
  - rewrite Hnode. unfold without. rewrite build_children, map_map.
    cbn [raw_entries_of]. intros Hin.
    apply list_elem_of_fmap in Hin as (c & Hp & Hc).
    rewrite build_path in Hp.
    apply surviving_elem in Hc as [Hc _].
    apply Hfresh. rewrite Hp. apply list_elem_of_fmap. by exists c.
  - unfold with_it, without. rewrite !build_eq. cbv zeta.
    cbn [snd raw_entries_of list_log]. rewrite surviving_failed by done.
    destruct (stat_entries_failed l1 l2 ∅ e sub)
      as (_ & before & after & -> & ->).
    eexists before, _. split; [by rewrite <- app_assoc|].
    by rewrite <- app_assoc.
Qed.

Lemma failed_child_is_dropped_witness :
  let l1 := [ file_entry "/T/a" (mk_stat 1 (ts 0) (ts 100));
              file_entry "/T/b" (mk_stat 2 (ts 0) (ts 200)) ] in
  let l2 := [ file_entry "/T/c" (mk_stat 4 (ts 0) (ts 100)) ] in
  let sub := MkWalk "/T/d" (Done (mk_stat 64 (ts 0) (ts 900))) false
               (OSError "Not a directory") in
  (walk_path sub ∉ map entry_path (l1 ++ l2)) ∧
  (build tie_dir).1
  = (build (MkWalk "/T" (Done (mk_stat 4096 (ts 0) (ts 0))) true
              (Done (l1 ++ l2)))).1 ∧
  (walk_path sub ∉ map path (children (build tie_dir).1)) ∧
  size (build tie_dir).1 = 7.
Proof.
  intros l1 l2 sub.
  assert (Hfresh : walk_path sub ∉ map entry_path (l1 ++ l2)).
  { apply (bool_decide_unpack _). vm_compute. exact I. }
  split; [exact Hfresh|].
  destruct (failed_child_is_dropped "/T" (mk_stat 4096 (ts 0) (ts 0))
              l1 l2 "Permission denied" sub Hfresh) as (H1 & H2 & H3 & _).
  split; [exact H1|]. split; [exact H2|]. reflexivity.
Defined.

(** ** The renderer *)


Section RendererFacts.

Variable ts_to_str : Qc → option string.

Lemma to_html_eq (self : Node) (indent : Z) :
  to_html ts_to_str self indent =
  (created ← ts_to_str (ctime self);
   modified ← ts_to_str (mtime self);
   size_h ← human_size (size self);
   let esc_name := Html.escape (name self) false in
   let pad := Py.str_repeat "  " (Z.to_nat indent) in
   if is_dir self then
     body ← mapM (λ child, to_html ts_to_str child (indent + 2))
              (children self);
     Some (dir_header pad esc_name size_h modified
           +:+ Py.str_join body +:+ dir_footer pad)
   else Some (file_line pad esc_name size_h modified)).
Proof. destruct self; reflexivity. Qed.

Lemma to_html_inv (self : Node) (indent : Z) (frag : string) :
  to_html ts_to_str self indent = Some frag →
  ∃ modified size_h,
    ts_to_str (mtime self) = Some modified ∧
    human_size (size self) = Some size_h ∧
    let esc_name := Html.escape (name self) false in
    let pad := Py.str_repeat "  " (Z.to_nat indent) in
    if is_dir self then
      ∃ body,
        Forall2 (λ child f, to_html ts_to_str child (indent + 2) = Some f)
          (children self) body ∧
        frag = dir_header pad esc_name size_h modified
               +:+ Py.str_join body +:+ dir_footer pad
    else frag = file_line pad esc_name size_h modified.
Proof.
  rewrite to_html_eq. intros H.
  destruct (ts_to_str (ctime self)) as [created|]; [|done].
  destruct (ts_to_str (mtime self)) as [modified|]; [|done].
  destruct (human_size (size self)) as [size_h|]; [|done].
  cbn [mbind option_bind] in H. cbv zeta in H.
  exists modified, size_h. split; [done|]. split; [done|]. cbv zeta.
  destruct (is_dir self).
  - destruct (mapM _ (children self)) as [body|] eqn:Hbody; [|done].
    cbn [mbind option_bind] in H. injection H as <-.
    exists body. split; [by apply mapM_Some | done].
  - by injection H as <-.
Qed.

(** Every fragment is its fixed opening, the escaped name, and a rest. *)
Lemma to_html_shape (self : Node) (indent : Z) (frag : string) :
  to_html ts_to_str self indent = Some frag →
  ∃ rest,
    frag = fragment_opening (is_dir self)
             (Py.str_repeat "  " (Z.to_nat indent))
           +:+ Html.escape (name self) false +:+ rest.
Proof.
  intros H. apply to_html_inv in H as (modified & size_h & _ & _ & H).
  cbv zeta in H. unfold fragment_opening.
  destruct (is_dir self).
  - destruct H as (body & _ & ->). unfold dir_header.
    eexists. rewrite !str_app_assoc. reflexivity.
  - rewrite H. unfold file_line.
    eexists. rewrite !str_app_assoc. reflexivity.
Qed.

End RendererFacts.


Section RendererClaims.

Variable ts_to_str : Qc → option string.

(** C8: the fragment of a node is made of fixed markup, of the formatted
    size and time, of the fragments of the children, and of
    [html.escape(name, quote=False)], once, right after the fixed opening
    of the fragment; the name enters it in no other way.  The escaped
    name is the name rewritten character by character, [&], [<] and [>]
    into the entities [&amp;], [&lt;] and [&gt;]; so it has no [<] and no
    [>], and each [&] in it starts one of these entities. *)
Theorem name_is_escaped (self : Node) (indent : Z) (frag : string) :
  to_html ts_to_str self indent = Some frag →
  let esc_name := Html.escape (name self) false in
  let pad := Py.str_repeat "  " (Z.to_nat indent) in
  (∃ size_h modified,
      human_size (size self) = Some size_h ∧
      ts_to_str (mtime self) = Some modified ∧
      if is_dir self then
        ∃ body,
          Forall2 (λ child f, to_html ts_to_str child (indent + 2) = Some f)
            (children self) body ∧
          frag = dir_header pad esc_name size_h modified
                 +:+ Py.str_join body +:+ dir_footer pad
      else frag = file_line pad esc_name size_h modified) ∧
  (∃ rest, frag = fragment_opening (is_dir self) pad +:+ esc_name +:+ rest) ∧
  esc_name = Py.str_join (map escape_char (chars (name self))) ∧
  (escape_char "&" = "&amp;" ∧ escape_char "<" = "&lt;" ∧
   escape_char ">" = "&gt;") ∧
  (∀ c, ¬ markup_significant c → escape_char c = String c "") ∧
  (∀ x, x ∈ chars esc_name → x ≠ "<"%char ∧ x ≠ ">"%char).
Proof.
  intros H esc_name pad.
  split.
  { apply to_html_inv in H as (modified & size_h & Hm & Hs & H).
    exists size_h, modified. split; [exact Hs|]. split; [exact Hm|].
    exact H. }
  split; [by apply (to_html_shape ts_to_str)|].
  split; [apply escape_char_wise|].
  split; [done|].
  split; [|apply escape_no_angle].
  intros c Hc. by destruct (escape_char_cases c) as [[Hs _]|[_ He]].
Qed.



End RendererClaims.

Lemma name_is_escaped_witness :
  to_html Utc.ts_to_str example_file 0
  = Some "<li>📄 a&lt;b&gt;.txt <small>(500 bytes, modified 1970-01-01 00:01:40)</small></li>
" ∧
  Html.escape (name example_file) false = "a&lt;b&gt;.txt" ∧
  ∀ x, x ∈ chars (Html.escape (name example_file) false) →
       x ≠ "<"%char ∧ x ≠ ">"%char.
Proof.
  assert (H : to_html Utc.ts_to_str example_file 0
    = Some "<li>📄 a&lt;b&gt;.txt <small>(500 bytes, modified 1970-01-01 00:01:40)</small></li>
") by (vm_compute; reflexivity).
  split; [exact H|]. split; [vm_compute; reflexivity|].
  destruct (name_is_escaped Utc.ts_to_str example_file 0 _ H)
    as (_ & _ & _ & _ & _ & Hno).
  exact Hno.
Defined.




(** ** More on the tree builder *)

Lemma healthy_entries p st (l : list Entry) :
  healthy (MkWalk p st true (Done l)) →
  Forall (λ c : Entry, stat_ok c ∧ healthy (snd c)) l.
Proof.
  intros [_ H]. specialize (H eq_refl).
  induction l as [|c l IH]; [constructor|].
  destruct H as [Hc Hl]. constructor; [exact Hc | by apply IH].
Qed.

Lemma sizes_nonneg_entries p st isdir (l : list Entry) :
  sizes_nonneg (MkWalk p st isdir (Done l)) →
  Forall (λ c : Entry, sizes_nonneg (snd c)) l.
Proof.
  intros [_ H].
  induction l as [|c l IH]; [constructor|].
  destruct H as [Hc Hl]. constructor; [exact Hc | by apply IH].
Qed.

(** The paths that the loop leaves in [stat_map]: those that were in it,
    and those of the entries whose [stat] succeeded. *)
Lemma stat_entries_dom (l : list Entry) (m : gmap string stat_result)
    (p : string) :
  is_Some ((stat_entries l m).1 !! p) ↔
  is_Some (m !! p) ∨ ∃ c, c ∈ l ∧ entry_path c = p ∧ stat_ok c.
Proof.
  revert m. induction l as [|c l IH]; intros m.
  { simpl. split; [auto|]. intros [H|(c & Hc & _)]; [done|].
    by apply elem_of_nil in Hc. }
  simpl. unfold stat_ok at 1. destruct (entry_stat c) as [st|e] eqn:Hst.
  - rewrite IH. split.
    + intros [H|(c' & Hc' & Hp & Hok)].
      * destruct (decide (entry_path c = p)) as [Heq|Hne].
        -- right. exists c. split; [left|]. split; [done|].
           unfold stat_ok. by rewrite Hst.
        -- left. by rewrite lookup_insert_ne in H.
      * right. exists c'. split; [by right | done].
    + intros [H|(c' & Hc' & Hp & Hok)].
      * left. destruct (decide (entry_path c = p)) as [Heq|Hne].
        -- rewrite Heq, lookup_insert_eq. by eexists.
        -- by rewrite lookup_insert_ne.
      * apply elem_of_cons in Hc' as [->|Hc'].
        -- left. rewrite Hp, lookup_insert_eq. by eexists.
        -- right. by exists c'.
  - specialize (IH m). destruct (stat_entries l m) as [m' lg]. cbn [fst] in *.
    rewrite IH. split.
    + intros [H|(c' & Hc' & Hp & Hok)]; [by left|].
      right. exists c'. split; [by right | done].
    + intros [H|(c' & Hc' & Hp & Hok)]; [by left|].
      apply elem_of_cons in Hc' as [->|Hc'].
      * unfold stat_ok in Hok. by rewrite Hst in Hok.
      * right. by exists c'.
Qed.

Lemma stat_entries_quiet (l : list Entry) (m : gmap string stat_result) :
  Forall stat_ok l → (stat_entries l m).2 = [].
Proof.
  intros H. revert m. induction H as [|c l Hc Hl IH]; intros m; [done|].
  simpl. unfold stat_ok in Hc. destruct (entry_stat c); [apply IH | done].
Qed.

(** An entry survives exactly when some entry of its path was stat'd
    successfully. *)
Lemma surviving_spec (raw : list Entry) (c : Entry) :
  c ∈ surviving (stat_entries raw ∅).1 entry_path raw ↔
  c ∈ raw ∧ ∃ c', c' ∈ raw ∧ entry_path c' = entry_path c ∧ stat_ok c'.
Proof.
  rewrite surviving_elem. unfold in_stat_map.
  rewrite bool_decide_eq_true, stat_entries_dom, lookup_empty.
  split; intros [Hc H]; (split; [done|]).
  - destruct H as [[? ?]|H]; done.
  - by right.
Qed.

Lemma surviving_length {B : Type} stat_map (path_of : B → string)
    (l : list B) :
  (length (surviving stat_map path_of l) ≤ length l)%nat.
Proof.
  unfold surviving. rewrite (Permutation_length (sort_desc_perm _ _)).
  apply length_filter.
Qed.

(** X1: a directory that cannot be listed is built as an empty directory:
    the same node as for an empty listing, with no children and size 0;
    the only trace of the failure is one line. *)
Theorem build_unlistable_directory (p e : string) (st : stat_result) :
  (build (MkWalk p (Done st) true (OSError e))).1
  = (build (MkWalk p (Done st) true (Done []))).1 ∧
  is_dir (build (MkWalk p (Done st) true (OSError e))).1 = true ∧
  children (build (MkWalk p (Done st) true (OSError e))).1 = [] ∧
  size (build (MkWalk p (Done st) true (OSError e))).1 = 0 ∧
  (build (MkWalk p (Done st) true (OSError e))).2 = [cannot_list_msg p e] ∧
  (build (MkWalk p (Done st) true (Done []))).2 = [].
Proof. repeat split. Qed.

(** X2: a path is among the paths of the children of a built directory
    exactly when some enumerated entry of that path was stat'd
    successfully in the parent's loop (the test is on the path, so an
    entry whose own [stat] failed survives when its path is enumerated a
    second time with success); and there are never more children than
    entries. *)
Theorem children_paths (p : string) (st : stat_result) (raw : list Entry) :
  (∀ q, q ∈ map path (children (build (MkWalk p (Done st) true (Done raw))).1)
        ↔ ∃ c, c ∈ raw ∧ entry_path c = q ∧ stat_ok c) ∧
  (length (children (build (MkWalk p (Done st) true (Done raw))).1)
   ≤ length raw)%nat.
Proof.
  rewrite build_children. cbn [raw_entries_of]. split.
  - intros q. rewrite map_map, list_elem_of_fmap. split.
    + intros (c & -> & Hc). rewrite build_path.
      apply surviving_spec in Hc as (_ & c' & Hc' & Hp & Hok).
      by exists c'.
    + intros (c & Hc & <- & Hok). exists c. rewrite build_path.
      split; [done|]. apply surviving_spec. split; [done|]. by exists c.
  - rewrite length_map. apply surviving_length.
Qed.

Lemma build_failed_stat (w : Walk) (e : string) :
  walk_stat w = OSError e →
  build w = (Node_init (walk_path w) false 0 0%Qc 0%Qc None,
             [skip_msg (walk_path w) e]).
Proof. destruct w as [p stat d it]. cbn [walk_stat]. by intros ->. Qed.

Lemma elem_of_concat {A : Type} (x : A) (l : list A) (ls : list (list A)) :
  x ∈ l → l ∈ ls → x ∈ concat ls.
Proof.
  intros Hx Hl. apply list_elem_of_In, in_concat. exists l.
  split; by apply list_elem_of_In.
Qed.

(** X3: when the parent's [stat] of an entry succeeds and the [stat] that
    [build] makes on the same entry fails (the entry went away in
    between), the entry is a child all the same, as a ghost leaf, and its
    line is among the diagnostics. *)
Theorem ghost_child_in_race (p : string) (st : stat_result)
    (raw : list Entry) (c : Entry) (e : string) :
  c ∈ raw → stat_ok c → walk_stat (snd c) = OSError e →
  Node_init (entry_path c) false 0 0%Qc 0%Qc None
    ∈ children (build (MkWalk p (Done st) true (Done raw))).1 ∧
  skip_msg (entry_path c) e ∈ (build (MkWalk p (Done st) true (Done raw))).2.
Proof.
  intros Hc Hok He.
  assert (Hs : c ∈ surviving (stat_entries raw ∅).1 entry_path raw).
  { apply surviving_spec. split; [done|]. by exists c. }
  pose proof (build_failed_stat _ _ He) as Hb. split.
  - rewrite build_children. cbn [raw_entries_of].
    apply list_elem_of_fmap. exists c. by rewrite Hb.
  - rewrite build_eq. cbv zeta. cbn [snd raw_entries_of].
    apply elem_of_app; right. apply elem_of_app; right.
    apply (elem_of_concat _ [skip_msg (entry_path c) e]); [left|].
    rewrite map_map. apply list_elem_of_fmap. exists c. by rewrite Hb.
Qed.

Lemma ghost_child_in_race_witness :
  let c : Entry :=
    (Done (mk_stat 5 (ts 0) (ts 7)),
     MkWalk "/T/gone" (OSError "No such file or directory") false
       (OSError "Not a directory")) in
  let d := build (MkWalk "/T" (Done (mk_stat 0 (ts 0) (ts 0))) true
                    (Done (tie_entries ++ [c]))) in
  map name (children d.1) = ["b"; "a"; "c"; "gone"] ∧
  Node_init "/T/gone" false 0 0%Qc 0%Qc None ∈ children d.1 ∧
  skip_msg "/T/gone" "No such file or directory" ∈ d.2.
Proof.
  intros c d. split; [vm_compute; reflexivity|].
  apply (ghost_child_in_race "/T" (mk_stat 0 (ts 0) (ts 0))
           (tie_entries ++ [c]) c "No such file or directory").
  - apply elem_of_app; right. left.
  - exact I.
  - reflexivity.
Defined.

Lemma rendered_nodes_eq (n : Node) :
  rendered_nodes n
  = n :: (if is_dir n then concat (map rendered_nodes (children n)) else []).
Proof. by destruct n. Qed.

Lemma build_leaves (w : Walk) :
  Forall leaf_has_no_children (subnodes (build w).1) ∧
  rendered_nodes (build w).1 = subnodes (build w).1.
Proof.
  induction w as [p stat isdir it IH] using Walk_nested_ind.
  destruct stat as [st|e]; [destruct isdir|].
  - rewrite rendered_nodes_eq, subnodes_eq.
    replace (is_dir (build (MkWalk p (Done st) true it)).1) with true
      by (by rewrite build_eq).
    rewrite Forall_forall in IH.
    assert (Hch : Forall (λ c, Forall leaf_has_no_children (subnodes c) ∧
                               rendered_nodes c = subnodes c)
                    (children (build (MkWalk p (Done st) true it)).1)).
    { rewrite build_children, Forall_fmap. apply Forall_forall.
      intros c Hc. apply surviving_elem in Hc as [Hc _]. by apply IH. }
    split.
    + constructor.
      * intros Hd. by rewrite build_eq in Hd.
      * apply Forall_concat, Forall_fmap.
        eapply Forall_impl; [exact Hch|]. by intros c [Hc _].
    + do 2 f_equal. apply map_ext_Forall.
      eapply Forall_impl; [exact Hch|]. by intros c [_ Hc].
  - split; [|reflexivity]. rewrite subnodes_eq. cbn.
    constructor; [done | constructor].
  - split; [|reflexivity]. rewrite subnodes_eq. cbn.
    constructor; [done | constructor].
Qed.

(** X4: in a built tree only directories have children: a node that is
    not a directory (a file, or a ghost) has none. *)
Theorem leaves_have_no_children (w : Walk) (n : Node) :
  n ∈ subnodes (build w).1 → is_dir n = false → children n = [].
Proof.
  intros Hn. destruct (build_leaves w) as [H _].
  rewrite Forall_forall in H. exact (H n Hn).
Qed.

Lemma leaves_have_no_children_witness :
  let w := snd (file_entry "/R/a.txt" (mk_stat 500 (ts 10) (ts 100))) in
  (build w).1 ∈ subnodes (build w).1 ∧
  is_dir (build w).1 = false ∧
  children (build w).1 = [].
Proof.
  intros w.
  assert (Hin : (build w).1 ∈ subnodes (build w).1)
    by (rewrite subnodes_eq; left).
  split; [exact Hin|]. split; [reflexivity|].
  exact (leaves_have_no_children w _ Hin eq_refl).
Defined.

Lemma filter_all {A : Type} (P : A → Prop) `{∀ a, Decision (P a)}
    (l : list A) :
  Forall P l → filter P l = l.
Proof.
  induction 1 as [|x l Hx Hl IH]; [done|].
  rewrite filter_cons, IH. by destruct (decide (P x)).
Qed.

Lemma build_quiet (w : Walk) : healthy w → (build w).2 = [].
Proof.
  induction w as [p stat isdir it IH] using Walk_nested_ind.
  intros Hw. destruct stat as [st|e]; [|by destruct Hw].
  destruct isdir; [|reflexivity].
  destruct it as [l|e]; [|by destruct Hw as [_ Hw]; specialize (Hw eq_refl)].
  apply healthy_entries in Hw. cbn [raw_entries_of] in IH.
  rewrite build_eq. cbv zeta. cbn [snd raw_entries_of list_log].
  rewrite stat_entries_quiet
    by (eapply Forall_impl; [exact Hw|]; by intros c [Hc _]).
  cbn [app]. apply concat_nil_Forall.
  rewrite map_map. apply Forall_fmap, Forall_forall. intros c Hc.
  apply surviving_elem in Hc as [Hc _].
  rewrite Forall_forall in IH, Hw. apply IH; [done|]. by apply Hw.
Qed.

(** X5: on a walk where no [stat] and no listing fails, [build] prints
    nothing, and a directory keeps a child for every entry that was
    enumerated. *)
Theorem healthy_walk_is_quiet (w : Walk) :
  healthy w →
  (build w).2 = [] ∧
  (∀ p st l, w = MkWalk p (Done st) true (Done l) →
             map path (children (build w).1) ≡ₚ map entry_path l).
Proof.
  intros Hw. split; [by apply build_quiet|].
  intros p st l ->. apply healthy_entries in Hw.
  rewrite build_children, map_map. cbn [raw_entries_of].
  erewrite map_ext; [|intros c; apply build_path].
  apply Permutation_map. unfold surviving.
  rewrite sort_desc_perm, filter_all; [done|].
  apply Forall_forall. intros c Hc.
  assert (Hs : c ∈ surviving (stat_entries l ∅).1 entry_path l).
  { apply surviving_spec. split; [done|]. exists c.
    rewrite Forall_forall in Hw. by destruct (Hw c Hc). }
  by apply surviving_elem in Hs as [_ Hs].
Qed.

Lemma healthy_walk_is_quiet_witness :
  healthy scenario ∧ (build scenario).2 = [] ∧
  map path (children (build scenario).1) ≡ₚ ["/R/a.txt"; "/R/B"].
Proof.
  assert (Hw : healthy scenario) by (vm_compute; intuition discriminate).
  split; [exact Hw|].
  destruct (healthy_walk_is_quiet scenario Hw) as [Hq Hk].
  split; [exact Hq|]. exact (Hk _ _ _ eq_refl).
Defined.

Lemma sum_nonneg_ge (l : list Z) :
  Forall (λ x, 0 ≤ x) l → 0 ≤ Py.sum l ∧ Forall (λ x, x ≤ Py.sum l) l.
Proof.
  induction 1 as [|x l Hx Hl [IH1 IH2]]; [split; [done | constructor]|].
  rewrite sum_cons. split; [lia|].
  constructor; [lia|]. eapply Forall_impl; [exact IH2|].
  intros y Hy. cbv beta in Hy. lia.
Qed.

Lemma build_sizes_within (w : Walk) :
  sizes_nonneg w →
  Forall (size_within (size (build w).1)) (subnodes (build w).1).
Proof.
  induction w as [p stat isdir it IH] using Walk_nested_ind.
  intros Hw. destruct stat as [st|e]; [destruct isdir|].
  - assert (Hraw : Forall (λ c : Entry, sizes_nonneg (snd c))
                     (raw_entries_of it)).
    { destruct it as [l|e]; [|constructor].
      by apply sizes_nonneg_entries in Hw. }
    rewrite subnodes_eq, build_size.
    set (ch := children (build (MkWalk p (Done st) true it)).1).
    assert (Hch : Forall (λ c, Forall (size_within (size c)) (subnodes c)) ch).
    { unfold ch. rewrite build_children, Forall_fmap. apply Forall_forall.
      intros c Hc. apply surviving_elem in Hc as [Hc _].
      rewrite Forall_forall in IH, Hraw. apply IH; [done|]. by apply Hraw. }
    assert (Hpos : Forall (λ x, 0 ≤ x) (map size ch)).
    { apply Forall_fmap. eapply Forall_impl; [exact Hch|].
      intros c Hc. cbv beta in Hc. rewrite subnodes_eq in Hc.
      apply Forall_cons_1 in Hc as [[Hc _] _]. exact Hc. }
    destruct (sum_nonneg_ge _ Hpos) as [Hsum Hle].
    constructor; [unfold size_within; rewrite build_size; fold ch; lia|].
    apply Forall_concat, Forall_fmap.
    apply Forall_forall. intros c Hc.
    rewrite Forall_forall in Hch. rewrite Forall_forall in Hle.
    specialize (Hch c Hc).
    specialize (Hle (size c) (list_elem_of_fmap_2 size _ _ Hc)).
    eapply Forall_impl; [exact Hch|].
    intros n [Hn1 Hn2]. split; lia.
  - rewrite subnodes_eq. cbn. destruct Hw as [Hw _].
    constructor; [split; cbn; lia | constructor].
  - rewrite subnodes_eq. cbn.
    constructor; [split; cbn; lia | constructor].
Qed.

(** X6: when no [stat] of the walk reports a negative size, no node of
    the built tree has a negative size, and no node is larger than the
    root. *)
Theorem built_sizes_bounded (w : Walk) (n : Node) :
  sizes_nonneg w → n ∈ subnodes (build w).1 →
  0 ≤ size n ≤ size (build w).1.
Proof.
  intros Hw Hn. pose proof (build_sizes_within w Hw) as H.
  rewrite Forall_forall in H. exact (H n Hn).
Qed.

Lemma built_sizes_bounded_witness :
  sizes_nonneg scenario ∧
  (build scenario).1 ∈ subnodes (build scenario).1 ∧
  0 ≤ size (build scenario).1 ≤ 2548.
Proof.
  assert (Hw : sizes_nonneg scenario) by (vm_compute; intuition discriminate).
  assert (Hin : (build scenario).1 ∈ subnodes (build scenario).1)
    by (rewrite subnodes_eq; left).
  split; [exact Hw|]. split; [exact Hin|].
  exact (built_sizes_bounded scenario _ Hw Hin).
Defined.

(** ** More on [human_size] *)

Lemma float_of_int_exact (n : Z) :
  0 ≤ n < 2 ^ 53 → Py.float_of_int n = Some (Qc_of_Z n).
Proof.
  intros [Hlo Hhi]. unfold Py.float_of_int, Py.float_of_nonneg. cbv zeta.
  destruct (Z.ltb_spec n 0) as [?|_]; [lia|].
  assert (Hbits : Z.log2 n + 1 ≤ 53).
  { destruct (Z.eq_dec n 0) as [->|Hn]; [done|].
    assert (Z.log2 n < 53) by (apply Z.log2_lt_pow2; lia). lia. }
  destruct (Z.leb_spec (Z.log2 n + 1) 53) as [_|?]; [|lia].
  assert (H53 : 2 ^ 53 < 2 ^ 1024) by (apply Z.pow_lt_mono_r; lia).
  destruct (Z.ltb_spec (Z.abs n) (2 ^ 1024)) as [_|?]; [done | lia].
Qed.

Lemma div_kib_lt (m : Z) (x : Qc) :
  (x < Qc_of_Z (1024 * m))%Qc → (x / kib < Qc_of_Z m)%Qc.
Proof.
  intros H. apply Qcnot_le_lt. intros Hle.
  apply (Qcmult_le_compat_r _ _ kib) in Hle;
    [|apply Qclt_le_weak, kib_pos].
  rewrite test_field in Hle.
  - apply Qclt_not_le in H. apply H.
    unfold kib in Hle. by rewrite <- Z2Qc_inj_mul, Z.mul_comm in Hle.
  - intros Heq. pose proof kib_pos as Hp. rewrite Heq in Hp.
    by apply Qclt_not_le in Hp; apply Hp, Qcle_refl.
Qed.

Lemma lt_kib (m : Z) (x : Qc) :
  m ≤ 1024 → (x < Qc_of_Z m)%Qc → (x < kib)%Qc.
Proof.
  intros Hm Hx. eapply Qclt_le_trans; [exact Hx|]. unfold kib.
  exact (proj1 (Z2Qc_inj_le _ _) Hm).
Qed.

(** X7: [human_size] raises on no byte count between the limit of the
    conversion of an [int] to a string (4300 digits) and 2^1023: a
    negative count, a small one and a large one are all rendered. *)
Theorem human_size_defined (n : Z) :
  - 10 ^ 4300 < n → n < 2 ^ 1023 → is_Some (human_size n).
Proof.
  intros _ Hn. unfold human_size. rewrite int_lt_float_kib.
  destruct (n =? 1); [by eexists|].
  destruct (bool_decide_reflect (n < 1024)) as [?|Hge]; [by eexists|].
  destruct (float_of_int_ge n 10 ltac:(lia) ltac:(lia) Hn) as (x & -> & _).
  by eexists.
Qed.

Lemma human_size_defined_witness :
  - 10 ^ 4300 < -5 ∧ -5 < 2 ^ 1023 ∧ is_Some (human_size (-5)) ∧
  human_size (-5) = Some "-5 bytes".
Proof.
  assert (Hlo : - 10 ^ 4300 < -5) by (vm_compute; reflexivity).
  assert (Hhi : -5 < 2 ^ 1023) by reflexivity.
  split; [exact Hlo|]. split; [exact Hhi|].
  split; [exact (human_size_defined (-5) Hlo Hhi) | vm_compute; reflexivity].
Defined.

(** X8: a count of at least 1024 and below 1024^4 is rendered in the
    unit of its magnitude, KiB from 1024, MiB from 1024^2, GiB from
    1024^3, as the exact quotient of the count by that power of 1024,
    rounded to one decimal. *)
Theorem human_size_unit_of_range (n : Z) (k : nat) (unit : string) :
  ["KiB"; "MiB"; "GiB"] !! k = Some unit →
  1024 ^ Z.of_nat (S k) ≤ n < 1024 ^ Z.of_nat (S (S k)) →
  human_size n
  = Some (Py.format_1f (running (Qc_of_Z n) (S k)) +:+ " " +:+ unit).
Proof.
  intros Hk [Hlo Hhi].
  assert (Hpow : 2 ^ 53 = 9007199254740992) by reflexivity.
  assert (Hbig : 1024 ≤ n ∧ n < 2 ^ 53).
  { rewrite Hpow. destruct k as [|[|[|k]]]; [| | |done].
    - change (1024 ^ Z.of_nat 1) with 1024 in Hlo.
      change (1024 ^ Z.of_nat 2) with 1048576 in Hhi. lia.
    - change (1024 ^ Z.of_nat 2) with 1048576 in Hlo.
      change (1024 ^ Z.of_nat 3) with 1073741824 in Hhi. lia.
    - change (1024 ^ Z.of_nat 3) with 1073741824 in Hlo.
      change (1024 ^ Z.of_nat 4) with 1099511627776 in Hhi. lia. }
  rewrite Hpow in Hbig. clear Hpow.
  unfold human_size. rewrite int_lt_float_kib.
  destruct (Z.eqb_spec n 1) as [?|_]; [lia|].
  destruct (bool_decide_reflect (n < 1024)) as [?|_]; [lia|].
  rewrite float_of_int_exact
    by (change (2 ^ 53) with 9007199254740992; lia).
  cbn [mbind option_bind]. f_equal.
  set (x := Qc_of_Z n).
  assert (Hle : ∀ m, m ≤ n → (Qc_of_Z m ≤ x)%Qc)
    by (intros m Hm; exact (proj1 (Z2Qc_inj_le _ _) Hm)).
  assert (Hlt : ∀ m, n < m → (x < Qc_of_Z m)%Qc)
    by (intros m Hm; exact (proj1 (Z2Qc_inj_lt _ _) Hm)).
  assert (H1024 : 1024 ≤ 1024) by lia.
  assert (H1M : 1024 ≤ 1024 * 1024) by lia.
  cbn [human_size_loop running]. unfold Py.float_lt.
  destruct k as [|[|[|k]]]; [| | |done]; injection Hk as <-.
  - change (1024 ^ Z.of_nat 2) with (1024 * 1024) in Hhi.
    rewrite (bool_decide_eq_true_2 _
               (lt_kib 1024 _ H1024 (div_kib_lt _ _ (Hlt _ Hhi)))).
    reflexivity.
  - change (1024 ^ Z.of_nat 2) with (1024 * 1024) in Hlo.
    change (1024 ^ Z.of_nat 3) with (1024 * (1024 * 1024)) in Hhi.
    rewrite (bool_decide_eq_false_2 _
               (not_lt_kib 1024 _ H1024 (div_kib_ge _ _ (Hle _ Hlo)))).
    rewrite (bool_decide_eq_true_2 _
               (lt_kib 1024 _ H1024
                  (div_kib_lt _ _ (div_kib_lt _ _ (Hlt _ Hhi))))).
    reflexivity.
  - change (1024 ^ Z.of_nat 3) with (1024 * (1024 * 1024)) in Hlo.
    change (1024 ^ Z.of_nat 4) with (1024 * (1024 * (1024 * 1024))) in Hhi.
    rewrite (bool_decide_eq_false_2 _
               (not_lt_kib (1024 * 1024) _ H1M
                  (div_kib_ge _ _ (Hle _ Hlo)))).
    rewrite (bool_decide_eq_false_2 _
               (not_lt_kib 1024 _ H1024
                  (div_kib_ge _ _ (div_kib_ge _ _ (Hle _ Hlo))))).
    rewrite (bool_decide_eq_true_2 _
               (lt_kib 1024 _ H1024
                  (div_kib_lt _ _ (div_kib_lt _ _
                     (div_kib_lt _ _ (Hlt _ Hhi)))))).
    reflexivity.
Qed.

Lemma human_size_unit_of_range_witness :
  ["KiB"; "MiB"; "GiB"] !! 1%nat = Some "MiB" ∧
  1024 ^ Z.of_nat 2 ≤ 5000000 < 1024 ^ Z.of_nat 3 ∧
  human_size 5000000 = Some "4.8 MiB".
Proof.
  assert (H : 1024 ^ Z.of_nat 2 ≤ 5000000 < 1024 ^ Z.of_nat 3)
    by (vm_compute; split; [discriminate | reflexivity]).
  split; [reflexivity|]. split; [exact H|].
  rewrite (human_size_unit_of_range 5000000 1 "MiB" eq_refl H).
  vm_compute. reflexivity.
Defined.

(** ** More on the renderer *)

Lemma Node_nested_ind (P : Node → Prop) :
  (∀ n, Forall P (children n) → P n) → ∀ n, P n.
Proof.
  intros Hstep. fix IH 1. intros n. apply Hstep.
  destruct n as [p nm d sz ct mt ch]. cbn [children].
  induction ch as [|c ch IHch]; constructor; [apply IH | apply IHch].
Qed.

Section RenderingSucceeds.

Variable ts_to_str : Qc → option string.

(** Rendering succeeds on a tree all of whose rendered nodes can be
    rendered. *)
Lemma to_html_complete (n : Node) (indent : Z) :
  Forall (renderable ts_to_str) (rendered_nodes n) →
  is_Some (to_html ts_to_str n indent).
Proof.
  revert indent. induction n as [n IH] using Node_nested_ind. intros indent.
  rewrite rendered_nodes_eq, to_html_eq. intros Hall.
  apply Forall_cons_1 in Hall as [([cr ->] & [mo ->] & [sh ->]) Hrest].
  cbn [mbind option_bind]. cbv zeta.
  destruct (is_dir n); [|by eexists].
  assert (Hbody : is_Some (mapM (λ child, to_html ts_to_str child (indent + 2))
                             (children n))).
  { apply mapM_is_Some. rewrite Forall_concat, Forall_fmap in Hrest.
    rewrite Forall_forall in IH. rewrite Forall_forall in Hrest.
    apply Forall_forall.
    intros c Hc. apply IH; [done|]. by apply Hrest. }
  destruct Hbody as [body ->]. by eexists.
Qed.

(** X9: [to_html] returns a fragment exactly when every node it renders
    (the node, and below a directory its children's) has two times that
    the clock can format and a size that [human_size] can; the
    indentation plays no part in it. *)
Theorem to_html_succeeds_iff (n : Node) (indent : Z) :
  is_Some (to_html ts_to_str n indent)
  ↔ Forall (renderable ts_to_str) (rendered_nodes n).
Proof.
  split; [|apply to_html_complete].
  revert indent. induction n as [n IH] using Node_nested_ind. intros indent.
  rewrite rendered_nodes_eq, to_html_eq. intros Hsome.
  destruct (ts_to_str (ctime n)) as [cr|] eqn:Hcr;
    [|by destruct Hsome].
  destruct (ts_to_str (mtime n)) as [mo|] eqn:Hmo;
    [|by destruct Hsome].
  destruct (human_size (size n)) as [sh|] eqn:Hsh;
    [|by destruct Hsome].
  cbn [mbind option_bind] in Hsome. cbv zeta in Hsome.
  constructor.
  { unfold renderable. rewrite Hcr, Hmo, Hsh. by repeat split; eexists. }
  destruct (is_dir n); [|constructor].
  destruct (mapM (λ child, to_html ts_to_str child (indent + 2)) (children n))
    as [body|] eqn:Hbody; [|by destruct Hsome].
  assert (Hch : is_Some (mapM (λ child, to_html ts_to_str child (indent + 2))
                           (children n))) by (by eexists).
  apply mapM_is_Some in Hch.
  apply Forall_concat, Forall_fmap.
  rewrite Forall_forall in IH. rewrite Forall_forall in Hch.
  apply Forall_forall.
  intros c Hc. apply (IH c Hc (indent + 2)). by apply Hch.
Qed.

End RenderingSucceeds.




(** ** More on escaping, and the document *)

Lemma escape_nil_cons (c : ascii) (s : string) :
  Html.escape (String c s) false ≠ "".
Proof.
  rewrite escape_cons.
  destruct (escape_char_cases c) as [[_ [He|[He|He]]]|[_ He]];
    rewrite He; discriminate.
Qed.

(** X11: escaping a name loses nothing: two names with the same escaped
    form are the same name. *)
Theorem escape_injective (s1 s2 : string) :
  Html.escape s1 false = Html.escape s2 false → s1 = s2.
Proof.
  revert s2. induction s1 as [|c1 s1 IH]; intros [|c2 s2] H.
  - reflexivity.
  - symmetry in H. by apply escape_nil_cons in H.
  - by apply escape_nil_cons in H.
  - rewrite !escape_cons in H.
    destruct (escape_char_cases c1) as [[Hs1 _]|[Hn1 He1]];
      destruct (escape_char_cases c2) as [[Hs2 _]|[Hn2 He2]].
    + destruct Hs1 as [-> | [-> | ->]]; destruct Hs2 as [-> | [-> | ->]];
        cbv [escape_char Ascii.eqb Bool.eqb String.append] in H;
        solve [discriminate H
              | f_equal; apply IH; injection H as H; exact H].
    + rewrite He2 in H. exfalso. apply Hn2.
      destruct Hs1 as [-> | [-> | ->]];
        cbv [escape_char Ascii.eqb Bool.eqb String.append] in H;
        injection H as <-; unfold markup_significant; auto.
    + rewrite He1 in H. exfalso. apply Hn1.
      destruct Hs2 as [-> | [-> | ->]];
        cbv [escape_char Ascii.eqb Bool.eqb String.append] in H;
        injection H as ->; unfold markup_significant; auto.
    + rewrite He1, He2 in H. cbv [String.append] in H.
      injection H as -> H. f_equal. by apply IH.
Qed.

Lemma escape_injective_witness :
  Html.escape "a<b" false = Html.escape "a<b" false ∧ "a<b" = "a<b".
Proof.
  split; [reflexivity|]. exact (escape_injective "a<b" "a<b" eq_refl).
Defined.

(** A character of [s.replace(old, new)] is one of [new], or one of [s]
    other than [old]. *)
Lemma str_replace_chars (old : ascii) (new s : string) (x : ascii) :
  x ∈ chars (Py.str_replace old new s) →
  x ∈ chars new ∨ (x ∈ chars s ∧ x ≠ old).
Proof.
  induction s as [|c s IH]; [intros H; by apply elem_of_nil in H|].
  cbn [Py.str_replace]. destruct (Ascii.eqb_spec c old) as [->|Hne].
  - rewrite chars_app. intros H. apply elem_of_app in H as [H|H]; [by left|].
    destruct (IH H) as [?|[? ?]]; [by left|]. right. split; [by right | done].
  - intros H. apply elem_of_cons in H as [->|H].
    + right. split; [left | done].
    + destruct (IH H) as [?|[? ?]]; [by left|].
      right. split; [by right | done].
Qed.

Lemma escape_quoted_safe (s : string) (x : ascii) :
  x ∈ chars (Html.escape s true) →
  x ≠ "<"%char ∧ x ≠ ">"%char ∧ x ≠ "034"%char ∧ x ≠ "'"%char.
Proof.
  change (Html.escape s true)
    with (Py.str_replace "'" "&#x27;"
            (Py.str_replace "034" "&quot;" (Html.escape s false))).
  intros H. apply str_replace_chars in H as [H|[H Hq1]].
  { unfold chars in H. simpl in H.
    repeat (apply elem_of_cons in H as [->|H]; [by repeat split|]).
    by apply elem_of_nil in H. }
  apply str_replace_chars in H as [H|[H Hq2]].
  { unfold chars in H. simpl in H.
    repeat (apply elem_of_cons in H as [->|H]; [by repeat split|]).
    by apply elem_of_nil in H. }
  destruct (escape_no_angle s x H) as [? ?]. by repeat split.
Qed.

(** X12: whatever the clock reading, the root path and the fragment are,
    [build_html_document] returns a document (no brace of the template is
    taken for a field, and values are not scanned for braces): a fixed
    head, the escaped root path, a fixed middle, the escaped root path
    again, the clock reading, and the fragment between the [main] tags,
    each as it is.  The escaped root path has no [<], [>] or quote. *)
Theorem build_html_document_shape :
  ∃ head mid : string,
    ∀ now root_path tree_html : string,
      build_html_document now root_path tree_html
      = Some (head +:+ Html.escape root_path true +:+ mid
              +:+ Html.escape root_path true +:+ "</code></h1>
<blockquote>
Generated " +:+ now
              +:+ " (local time). Entries sorted by <em>most recently modified</em>.
</blockquote>
<main>
" +:+ tree_html +:+ "
</main>
</body>
</html>
") ∧
      ∀ x, x ∈ chars (Html.escape root_path true) →
           x ≠ "<"%char ∧ x ≠ ">"%char ∧ x ≠ "034"%char ∧ x ≠ "'"%char.
Proof.
  pose (i1 := default 0%nat (index 0 "{root}" DOC_TEMPLATE)).
  pose (i2 := default 0%nat (index (i1 + 6) "{root}" DOC_TEMPLATE)).
  exists (default "" (PyFormat.format (substring 0 i1 DOC_TEMPLATE)
                        (λ _, None))).
  exists (default "" (PyFormat.format
                        (substring (i1 + 6) (i2 - (i1 + 6)) DOC_TEMPLATE)
                        (λ _, None))).
  intros now root_path tree_html. split; [|apply escape_quoted_safe].
  vm_compute. reflexivity.
Qed.

(** ** The node's name and own metadata *)

Lemma last_part_no_slash (acc s : string) :
  "/"%char ∉ chars acc → "/"%char ∉ chars (Path.last_part acc s).
Proof.
  revert acc. induction s as [|c s IH]; intros acc Hacc; [done|].
  cbn [Path.last_part]. destruct (Ascii.eqb_spec c "/") as [->|Hne].
  - apply IH. apply not_elem_of_nil.
  - apply IH. rewrite chars_app. intros H.
    apply elem_of_app in H as [H|H]; [done|].
    apply elem_of_cons in H as [H|H]; [by subst c|].
    by apply elem_of_nil in H.
Qed.

Lemma str_app_nil_r (s : string) : s +:+ "" = s.
Proof.
  induction s as [|c s IH]; [done|]. by rewrite str_app_cons, IH.
Qed.

Lemma last_part_slash_free (acc s : string) :
  "/"%char ∉ chars s → Path.last_part acc s = acc +:+ s.
Proof.
  revert acc. induction s as [|c s IH]; intros acc Hs.
  { by rewrite str_app_nil_r. }
  cbn [Path.last_part]. destruct (Ascii.eqb_spec c "/") as [->|Hne].
  - exfalso. apply Hs. left.
  - rewrite IH by (intros H; apply Hs; by right).
    by rewrite str_app_assoc.
Qed.

Lemma last_part_after_slash (acc dir base : string) :
  Path.last_part acc (dir +:+ "/" +:+ base) = Path.last_part "" base.
Proof.
  revert acc. induction dir as [|c dir IH]; intros acc.
  { reflexivity. }
  rewrite str_app_cons. cbn [Path.last_part].
  destruct (Ascii.eqb c "/"); apply IH.
Qed.

(** X13: the display name of a node is what follows the last slash of its
    path: for a path without a slash the path itself; for a path
    [dir/base], with no slash in [base], it is [base], and the whole path
    when [base] is empty (a root).  It is empty only for the empty
    path. *)
Theorem node_name (dir base : string) (isdir : bool) (sz : Z) (ct mt : Qc)
    (ch : option (list Node)) :
  "/"%char ∉ chars base →
  name (Node_init base isdir sz ct mt ch) = base ∧
  name (Node_init (dir +:+ "/" +:+ base) isdir sz ct mt ch)
  = (if String.eqb base "" then dir +:+ "/" +:+ base else base) ∧
  (∀ p, p ≠ "" → name (Node_init p isdir sz ct mt ch) ≠ "").
Proof.
  intros Hbase. cbn [name Node_init]. split; [|split].
  - unfold Path.name. destruct (String.eqb_spec base ".") as [->|Hdot].
    { reflexivity. }
    rewrite last_part_slash_free by done.
    change ("" +:+ base) with base.
    by destruct (String.eqb_spec base "") as [->|Hne].
  - assert (Hp : Path.name (dir +:+ "/" +:+ base) = base).
    { unfold Path.name.
      destruct (String.eqb_spec (dir +:+ "/" +:+ base) ".") as [Heq|_].
      - exfalso.
        assert (Hin : "/"%char ∈ chars (dir +:+ "/" +:+ base)).
        { rewrite !chars_app. apply elem_of_app; right.
          apply elem_of_app; left. left. }
        rewrite Heq in Hin. apply elem_of_cons in Hin as [Hin|Hin];
          [discriminate Hin | by apply elem_of_nil in Hin].
      - rewrite last_part_after_slash, last_part_slash_free by done.
        reflexivity. }
    by rewrite Hp.
  - intros p Hp. by destruct (String.eqb_spec (Path.name p) "").
Qed.

Lemma node_name_witness :
  ("/"%char ∉ chars "a.txt") ∧
  name (Node_init "a.txt" false 0 0%Qc 0%Qc None) = "a.txt" ∧
  name (Node_init "/R/a.txt" false 0 0%Qc 0%Qc None) = "a.txt" ∧
  name (Node_init "/" true 0 0%Qc 0%Qc None) = "/".
Proof.
  assert (H1 : "/"%char ∉ chars "a.txt")
    by (apply (bool_decide_unpack _); vm_compute; exact I).
  assert (H2 : "/"%char ∉ chars "")
    by (apply (bool_decide_unpack _); vm_compute; exact I).
  split; [exact H1|].
  destruct (node_name "/R" "a.txt" false 0 0%Qc 0%Qc None H1)
    as (Ha & Hb & _).
  destruct (node_name "" "" true 0 0%Qc 0%Qc None H2) as (_ & Hc & _).
  split; [exact Ha|]. split; [exact Hb | exact Hc].
Defined.

(** X14: the path, the creation time and the modification time of a built
    node are those of the [stat] that [build] made on it, for a directory
    as for a file: the times of a directory do not depend on what it
    holds. *)
Theorem build_own_metadata (w : Walk) (st : stat_result) :
  walk_stat w = Done st →
  path (build w).1 = walk_path w ∧
  ctime (build w).1 = st_ctime st ∧
  mtime (build w).1 = st_mtime st.
Proof.
  intros Hst. split; [apply build_path|].
  destruct w as [p stat [|] it]; cbn [walk_stat] in Hst; subst stat.
  - by rewrite build_eq.
  - done.
Qed.

Lemma build_own_metadata_witness :
  walk_stat scenario = Done (mk_stat 4096 (ts 10) (ts 300)) ∧
  path (build scenario).1 = "/R" ∧
  ctime (build scenario).1 = ts 10 ∧
  mtime (build scenario).1 = ts 300.
Proof.
  split; [reflexivity|].
  exact (build_own_metadata scenario _ eq_refl).
Defined.
